(** * Patents per million: the data pipeline of [innovationsperMvers2.py]

    The script reads an OECD export, divides each observation by the
    population of its country, averages duplicates per (country, year),
    pivots to a country x year table, orders the countries by one of three
    policies and emits one value list per year for the chart.

    Modelling conventions.
    - A pandas frame is a list of rows, a Series a list of (label, value).
    - A float cell is [option Qc]: [None] is NaN, pandas' missing marker,
      and [Some q] an exact rational.  Rounding error, overflow and signed
      zeros of binary64 are outside the model.
    - The year column is held more closely: after [to_numeric] a year is
      NaN, a finite number or an infinity, and the cast to int
      ([astype_int64]) has the error pandas raises on an infinity and
      the value numpy gives beyond the int64 range.  [numeric_rows] is
      the same step on the frames on which neither arises.
    - The COUNTRY column is a column of text.
    - numpy's sorting kernel behind [sort_values] (kind = "quicksort", the
      default the script leaves in place) is a parameter of the sorter,
      constrained only by what numpy promises for it: an ordered
      permutation of the positions.  [argsort_simd] is the kernel numpy
      runs on x86 processors, for arrays of up to four keys.
    - Python's built-in [int] and pandas' [to_numeric] are parameters too;
      small decimal readers instantiate them in the examples.
    - The normalized rows are written to a CSV file and read back before
      the aggregation; the model hands them over unchanged. *)

From Stdlib Require Import List String Ascii Bool Arith ZArith Lia Lqa.
From Stdlib Require Import QArith Qcanon Qround DecimalString.
From Stdlib Require Import Permutation Sorting.Sorted OrderedTypeEx.
From Stdlib Require Import DecimalPos DecimalZ.
Import ListNotations.

Local Close Scope Qc_scope.
Local Close Scope Q_scope.
Local Open Scope list_scope.

(** ** Numbers *)

Definition Qcltb (x y : Qc) : bool :=
  match (x ?= y)%Qc with Lt => true | _ => false end.

Definition Qcleb (x y : Qc) : bool :=
  match (x ?= y)%Qc with Gt => false | _ => true end.

Definition Qc_of_Z (z : Z) : Qc := Q2Qc (inject_Z z).
Definition Qc_of_nat (n : nat) : Qc := Qc_of_Z (Z.of_nat n).

(** [a / b] on float columns: NaN propagates. *)
Definition fdiv (a b : option Qc) : option Qc :=
  match a, b with
  | Some x, Some y => Some (x / y)%Qc
  | _, _ => None
  end.

(** [col > 0]: a comparison with NaN is False. *)
Definition gt0 (p : option Qc) : bool :=
  match p with
  | Some q => Qcltb 0%Qc q
  | None => false
  end.

Definition notna {A : Type} (v : option A) : bool :=
  match v with Some _ => true | None => false end.

Definition isna {A : Type} (v : option A) : bool := negb (notna v).

(** ** Input rows and the population table *)

Record Observation : Type := mkObservation {
  COUNTRY : string;
  Country : string;
  TIME_PERIOD : string;         (* the field as it stands in the CSV *)
  OBS_VALUE : option Qc
}.

(** A Python dict with string keys, as its list of items. *)
Definition dict (V : Type) : Type := list (string * V).

Fixpoint dict_get {V : Type} (d : dict V) (k : string) : option V :=
  match d with
  | [] => None
  | (k', v) :: d' => if String.eqb k' k then Some v else dict_get d' k
  end.

Definition population_millions : dict Qc :=
  [ ("AUS"%string, Qc_of_Z 27); ("DEU"%string, Qc_of_Z 83);
    ("CHE"%string, Qc_of_Z 9); ("ESP"%string, Qc_of_Z 48);
    ("FRA"%string, Qc_of_Z 68); ("GBR"%string, Qc_of_Z 68);
    ("JPN"%string, Qc_of_Z 125); ("KOR"%string, Qc_of_Z 52);
    ("NLD"%string, Qc_of_Z 18); ("USA"%string, Qc_of_Z 333);
    ("WXOECD"%string, Qc_of_Z 1350) ].

(** ** Step 3: merge and ratio *)

Record Merged : Type := mkMerged {
  m_obs : Observation;
  Population_millions : option Qc;
  Patents_per_million : option Qc
}.

(** [df.merge(pop_df, on="COUNTRY", how="left")]: every left row is kept,
    in order, with the population of its code or NaN. *)
Definition merge_left (pop : dict Qc) (df : list Observation)
  : list (Observation * option Qc) :=
  map (fun r => (r, dict_get pop (COUNTRY r))) df.

Definition dropna_population (m : list (Observation * option Qc))
  : list (Observation * option Qc) :=
  filter (fun rp => notna (snd rp)) m.

Definition positive_population (m : list (Observation * option Qc))
  : list (Observation * option Qc) :=
  filter (fun rp => gt0 (snd rp)) m.

Definition add_ratio (m : list (Observation * option Qc)) : list Merged :=
  map (fun rp => mkMerged (fst rp) (snd rp) (fdiv (OBS_VALUE (fst rp)) (snd rp))) m.

Definition merged (pop : dict Qc) (df : list Observation) : list Merged :=
  add_ratio (positive_population (dropna_population (merge_left pop df))).

(** ** Step 5: numeric years, duplicates collapsed by their mean *)

Definition key : Type := (string * Z)%type.

Definition key_eqb (a b : key) : bool :=
  (String.eqb (fst a) (fst b) && Z.eqb (snd a) (snd b))%bool.

(** Lexicographic order on (COUNTRY, TIME_PERIOD), the order [groupby]
    sorts its group keys in. *)
Definition key_compare (a b : key) : comparison :=
  match String.compare (fst a) (fst b) with
  | Eq => Z.compare (snd a) (snd b)
  | c => c
  end.

(** Truncation toward zero: [astype(int)] on a year of a float column
    whose truncation is an int64 ([float_to_int64] below has the other
    years). *)
Definition astype_int (q : Qc) : Z := Z.quot (Qnum q) (Zpos (Qden q)).

Definition Qc_sum (vs : list Qc) : Qc := fold_left Qcplus vs 0%Qc.

Definition mean (vs : list Qc) : Qc := (Qc_sum vs / Qc_of_nat (List.length vs))%Qc.

(** One pass over the rows: the value joins the group of its key, and the
    groups stay in key order. *)
Fixpoint group_insert (k : key) (v : Qc) (g : list (key * list Qc))
  : list (key * list Qc) :=
  match g with
  | [] => [(k, [v])]
  | (k', vs) :: g' =>
      match key_compare k k' with
      | Eq => (k', vs ++ [v]) :: g'
      | Lt => (k, [v]) :: (k', vs) :: g'
      | Gt => (k', vs) :: group_insert k v g'
      end
  end.

Definition groups (rows : list (key * Qc)) : list (key * list Qc) :=
  fold_left (fun g r => group_insert (fst r) (snd r) g) rows [].

(** [groupby(["COUNTRY","TIME_PERIOD"], as_index=False)[...].mean()] *)
Definition groupby_mean (rows : list (key * Qc)) : list (key * Qc) :=
  map (fun g => (fst g, mean (snd g))) (groups rows).

Section Aggregator.

(** [pd.to_numeric(_, errors="coerce")] on one field: the number read,
    or NaN when the field is not numeric. *)
Variable to_numeric : string -> option Qc.

(** Lines 50-52 on a frame whose numeric years are finite and within
    int64: coerce the year, drop the rows with a NaN year or a NaN ratio,
    cast the year to int.  [int_rows] below takes every frame, with the
    years that stop the cast or leave the range. *)
Definition numeric_rows (df : list Merged) : list (key * Qc) :=
  flat_map (fun r =>
    match to_numeric (TIME_PERIOD (m_obs r)), Patents_per_million r with
    | Some t, Some v => [((COUNTRY (m_obs r), astype_int t), v)]
    | _, _ => []
    end) df.

Definition df_ratio (df : list Merged) : list (key * Qc) :=
  groupby_mean (numeric_rows df).

End Aggregator.

(** ** Sorting helpers *)

(** Insertion sort, elements taken left to right; an element settles
    after every earlier one that is [le] to it. *)
Fixpoint insert_by {A : Type} (le : A -> A -> bool) (x : A) (l : list A)
  : list A :=
  match l with
  | [] => [x]
  | y :: l' => if le y x then y :: insert_by le x l' else x :: y :: l'
  end.

Definition isort {A : Type} (le : A -> A -> bool) (l : list A) : list A :=
  fold_left (fun acc x => insert_by le x acc) l [].

(** Python's [sorted] on a list of ints. *)
Definition sorted (l : list Z) : list Z := isort Z.leb l.

(** [l[i] for i in idx] *)
Definition take {A : Type} (d : A) (l : list A) (idx : list nat) : list A :=
  map (fun i => nth i l d) idx.

(** ** The pivot table *)

Record Pivot : Type := mkPivot {
  columns : list Z;                           (* year labels *)
  rows : list (string * list (option Qc))     (* country label, one cell per column *)
}.

Definition Series : Type := list (string * option Qc).

Definition index (p : Pivot) : list string := map fst (rows p).

Fixpoint lookup {V : Type} (k : key) (d : list (key * V)) : option V :=
  match d with
  | [] => None
  | (k', v) :: d' => if key_eqb k' k then Some v else lookup k d'
  end.

(** [df_ratio.pivot(index="COUNTRY", columns="TIME_PERIOD", values=...)]:
    the distinct codes and years, both ascending, and the cell of every
    pair (NaN when the pair has no row).  The keys of [d] are distinct
    after [groupby_mean], so pandas' duplicate-entry error cannot arise. *)
Definition pivot_table (d : list (key * Qc)) : Pivot :=
  let idx := isort String.leb (nodup string_dec (map (fun r => fst (fst r)) d)) in
  let cols := isort Z.leb (nodup Z.eq_dec (map (fun r => snd (fst r)) d)) in
  mkPivot cols (map (fun c => (c, map (fun y => lookup (c, y) d) cols)) idx).

(** [pivot.sort_index()] *)
Definition sort_index (p : Pivot) : Pivot :=
  mkPivot (columns p) (isort (fun a b => String.leb (fst a) (fst b)) (rows p)).

(** position of a column label *)
Fixpoint col_pos (cols : list Z) (y : Z) : option nat :=
  match cols with
  | [] => None
  | c :: cols' => if Z.eqb c y then Some 0
                  else option_map S (col_pos cols' y)
  end.

Definition in_columns (y : Z) (p : Pivot) : bool := notna (col_pos (columns p) y).

(** [pivot[y]]; [None] is the KeyError of a label that is no column. *)
Definition getitem (p : Pivot) (y : Z) : option Series :=
  match col_pos (columns p) y with
  | Some j => Some (map (fun r => (fst r, nth j (snd r) None)) (rows p))
  | None => None
  end.

Fixpoint find_row (c : string) (rs : list (string * list (option Qc)))
  : option (list (option Qc)) :=
  match rs with
  | [] => None
  | (c', r) :: rs' => if String.eqb c' c then Some r else find_row c rs'
  end.

(** the cell of a (country, year) pair, NaN when there is none *)
Definition cell (p : Pivot) (c : string) (y : Z) : option Qc :=
  match find_row c (rows p), col_pos (columns p) y with
  | Some r, Some j => nth j r None
  | _, _ => None
  end.

(** [pivot.sum(axis=1, skipna=True)] *)
Definition sum_skipna (r : list (option Qc)) : Qc :=
  fold_left (fun acc c => match c with Some v => (acc + v)%Qc | None => acc end)
            r 0%Qc.

Definition pivot_sum (p : Pivot) : Series :=
  map (fun r => (fst r, Some (sum_skipna (snd r)))) (rows p).

(** [pivot.sort_index(axis=1)]: columns ascending, cells moved along. *)
Definition sort_columns (p : Pivot) : Pivot :=
  let perm := isort (fun i j => Z.leb (nth i (columns p) 0%Z) (nth j (columns p) 0%Z))
                    (seq 0 (List.length (columns p))) in
  mkPivot (take 0%Z (columns p) perm)
          (map (fun r => (fst r, take None (snd r) perm)) (rows p)).

(** [row.dropna()] *)
Fixpoint dropna (r : list (option Qc)) : list Qc :=
  match r with
  | [] => []
  | Some v :: r' => v :: dropna r'
  | None :: r' => dropna r'
  end.

(** [row.dropna().iloc[-1] if not row.dropna().empty else nan] *)
Definition latest_val (r : list (option Qc)) : option Qc :=
  match dropna r with
  | [] => None
  | v :: vs => Some (last vs v)
  end.

(** [max(years) if years else None] *)
Definition max_years (years : list Z) : option Z :=
  match years with
  | [] => None
  | y :: ys => Some (fold_left Z.max ys y)
  end.

(** [s.split(":", 1)[1]]; [None] is the IndexError of a string without
    a colon. *)
Fixpoint split_colon_1 (s : string) : option string :=
  match s with
  | EmptyString => None
  | String c s' => if Ascii.eqb c ":"%char then Some s' else split_colon_1 s'
  end.

Definition startswith (s p : string) : bool := String.prefix p s.

(** ** Step 5, the bar order *)

(** What numpy promises of [argsort] on a float array without NaN: the
    positions, each once, in ascending order of their values. *)
Definition argsort_ok (argsort : list Qc -> list nat) : Prop :=
  forall xs,
    Permutation (argsort xs) (seq 0 (List.length xs)) /\
    StronglySorted (fun i j => (nth i xs 0%Qc <= nth j xs 0%Qc)%Qc) (argsort xs).

(** A stable kernel also keeps equal values in position order. *)
Definition argsort_stable (argsort : list Qc -> list nat) : Prop :=
  forall xs,
    StronglySorted (fun i j => nth i xs 0%Qc = nth j xs 0%Qc -> i < j)
                   (argsort xs).

(** [idx[~mask]] and [np.nonzero(mask)[0]] of [nargsort], the mask being
    [isna(items)]. *)
Definition non_nan_idx (items : list (option Qc)) : list nat :=
  filter (fun i => notna (nth i items None)) (seq 0 (List.length items)).

Definition nan_idx (items : list (option Qc)) : list nat :=
  filter (fun i => isna (nth i items None)) (seq 0 (List.length items)).

Section Sorter.

(** [ndarray.argsort(kind="quicksort")] *)
Variable argsort : list Qc -> list nat.

(** Python's built-in [int] on a string; [None] is its ValueError. *)
Variable py_int : string -> option Z.

(** pandas' [nargsort(items, kind, ascending=False, na_position="last")]:
    the non-NaN values are reversed, sorted ascending by the kernel, the
    result reversed again, and the NaN positions appended in order. *)
Definition indexer (items : list (option Qc)) : list nat :=
  take 0 (rev (non_nan_idx items)) (argsort (rev (dropna items))).

Definition nargsort_desc (items : list (option Qc)) : list nat :=
  rev (indexer items) ++ nan_idx items.

(** [s.sort_values(ascending=False)] *)
Definition sort_values_desc (s : Series) : Series :=
  take (EmptyString, None) s (nargsort_desc (map snd s)).

(** The series of latest values, lines 85-89. *)
Definition latest_vals (pivot : Pivot) : Series :=
  map (fun r => (fst r, latest_val (snd r))) (rows (sort_columns pivot)).

(** Lines 72-90.  [None] stands for a run that stops on a KeyError. *)
Definition categories (SORT_MODE : string) (pivot : Pivot)
  : option (list string) :=
  let years := sorted (columns pivot) in
  if String.eqb SORT_MODE "total" then
    Some (map fst (sort_values_desc (pivot_sum pivot)))
  else if startswith SORT_MODE "year:" then
    let y :=
      match split_colon_1 SORT_MODE with
      | Some t =>
          match py_int t with
          | Some n => Some n
          | None => max_years years
          end
      | None => max_years years
      end in
    let y :=
      match y with
      | None => max_years years
      | Some n => if in_columns n pivot then Some n else max_years years
      end in
    match y with
    | None => Some (index pivot)
    | Some n =>
        match getitem pivot n with
        | Some s => Some (map fst (sort_values_desc s))
        | None => None
        end
    end
  else
    Some (map fst (sort_values_desc (latest_vals pivot))).

End Sorter.

(** ** Step 5, the series of the chart *)

(** Round half to even, the tie rule of Python's [round]. *)
Definition round_half_even (x : Q) : Z :=
  let f := Qfloor x in
  match Qcompare (x - inject_Z f) (1 # 2) with
  | Lt => f
  | Gt => (f + 1)%Z
  | Eq => if Z.even f then f else (f + 1)%Z
  end.

(** [round(float(v), 2)] *)
Definition round2 (v : Qc) : Qc :=
  (Qc_of_Z (round_half_even (v * Qc_of_Z 100)%Qc) / Qc_of_Z 100)%Qc.

(** [pivot.reindex(categories)]: the rows of the labels asked for, in that
    order; a label without a row gets a row of NaN. *)
Definition reindex (p : Pivot) (labels : list string) : Pivot :=
  mkPivot (columns p)
    (map (fun c => (c, match find_row c (rows p) with
                       | Some r => r
                       | None => repeat None (List.length (columns p))
                       end)) labels).

(** Lines 93-95.  The test [y in pivot.columns] and the selection [[y]]
    are one match on the position of the label. *)
Definition series_for_year (pivot : Pivot) (categories : list string) (y : Z)
  : list (option Qc) :=
  let s : Series :=
    match col_pos (columns pivot) y with
    | Some j =>
        map (fun r => (fst r, nth j (snd r) None))
            (rows (reindex pivot categories))
    | None => map (fun c => (c, None)) categories
    end in
  map (fun v => match v with
                | None => None
                | Some q => Some (round2 q)
                end) (map snd s).

(** [str(y)] *)
Definition str (y : Z) : string := NilZero.string_of_int (Z.to_int y).

(** Line 97 *)
Definition data_by_year (pivot : Pivot) (categories : list string)
  : dict (list (option Qc)) :=
  map (fun y => (str y, series_for_year pivot categories y))
      (sorted (columns pivot)).

(** ** Instances of the parameters *)

(** Insertion sort on positions, the small-array path of numpy's
    quicksort; stable. *)
Definition argsort_insertion (xs : list Qc) : list nat :=
  isort (fun i j => Qcleb (nth i xs 0%Qc) (nth j xs 0%Qc))
        (seq 0 (List.length xs)).

(** numpy's [argsort(kind="quicksort")] on a float64 array as numpy runs
    it on x86 processors with AVX-512 and, from numpy 2 on, with AVX2
    (the x86-simd-sort kernel).
    An array of two to four keys is loaded into one register, each key
    with its position, the unused lanes padded with the largest value;
    a bitonic network of compare-exchanges then sorts the lanes, and an
    exchange moves a key only when it is strictly larger than the key of
    the lower lane, so that equal keys stay where they are.  (A register
    of AVX-512 has eight lanes; with at most four keys its upper four hold
    padding and the later stages of its network exchange nothing.) *)

(** A lane: its key ([None] is the padding, larger than every key) and
    the position the key came from. *)
Definition lane : Type := (option Qc * nat)%type.

Definition key_gtb (a b : option Qc) : bool :=
  match a, b with
  | Some x, Some y => Qcltb y x
  | None, Some _ => true
  | _, None => false
  end.

(** compare-exchange: the smaller key to the lower lane *)
Definition coex (lo hi : lane) : lane * lane :=
  if key_gtb (fst lo) (fst hi) then (hi, lo) else (lo, hi).

Definition sort_register (r : lane * lane * lane * lane)
  : lane * lane * lane * lane :=
  let '(l0, l1, l2, l3) := r in
  let '(l0, l1) := coex l0 l1 in
  let '(l2, l3) := coex l2 l3 in
  let '(l0, l3) := coex l0 l3 in
  let '(l1, l2) := coex l1 l2 in
  let '(l0, l1) := coex l0 l1 in
  let '(l2, l3) := coex l2 l3 in
  (l0, l1, l2, l3).

Definition load_lane (xs : list Qc) (i : nat) : lane :=
  match nth_error xs i with
  | Some x => (Some x, i)
  | None => (None, 0)
  end.

(** Arrays of more than four keys take further registers in numpy; they
    are sorted here by insertion. *)
Definition argsort_simd (xs : list Qc) : list nat :=
  let n := List.length xs in
  if n <=? 1 then seq 0 n
  else if n <=? 4 then
    let '(l0, l1, l2, l3) :=
      sort_register (load_lane xs 0, load_lane xs 1,
                     load_lane xs 2, load_lane xs 3) in
    firstn n [snd l0; snd l1; snd l2; snd l3]
  else argsort_insertion xs.

(** Plain decimal numerals, on which [int] and [to_numeric] agree. *)
Fixpoint digits_value (s : string) (acc : Z) : option Z :=
  match s with
  | EmptyString => Some acc
  | String c s' =>
      let n := nat_of_ascii c in
      if ((48 <=? n) && (n <=? 57))%nat
      then digits_value s' (10 * acc + Z.of_nat (n - 48))%Z
      else None
  end.

Definition int_of_digits (s : string) : option Z :=
  match s with
  | EmptyString => None
  | _ => digits_value s 0%Z
  end.

Definition numeric_of_digits (s : string) : option Qc :=
  option_map Qc_of_Z (int_of_digits s).

(** ** The worked example of the specification *)

Definition obs (c y : string) (v : Z) : Observation :=
  mkObservation c c y (Some (Qc_of_Z v)).

Definition example_observations : list Observation :=
  [ obs "A" "2020" 10; obs "A" "2021" 20; obs "B" "2020" 5 ].

Definition example_population : dict Qc :=
  [ ("A"%string, Qc_of_Z 10); ("B"%string, Qc_of_Z 5) ].

Definition example_merged : list Merged :=
  merged example_population example_observations.

Definition example_pivot : Pivot :=
  sort_index (pivot_table (df_ratio numeric_of_digits example_merged)).

(** Four countries, the first two with the same total. *)
Definition tie4_pivot : Pivot :=
  mkPivot [2020%Z] [ ("A"%string, [Some (Qc_of_Z 1)]);
                     ("B"%string, [Some (Qc_of_Z 1)]);
                     ("C"%string, [Some (Qc_of_Z 2)]);
                     ("D"%string, [Some (Qc_of_Z 3)]) ].

(** Two countries with the same total. *)
Definition tie_pivot : Pivot :=
  mkPivot [2020%Z] [ ("A"%string, [Some (Qc_of_Z 1)]);
                     ("B"%string, [Some (Qc_of_Z 1)]) ].

(** Rows with distinct keys, out of key order. *)
Definition example_rows : list (key * Qc) :=
  [ (("B"%string, 2020%Z), Qc_of_Z 1); (("A"%string, 2021%Z), Qc_of_Z 2);
    (("A"%string, 2020%Z), Qc_of_Z 1) ].

(** ** What the claims speak of *)

(** Descending, NaN after every number. *)
Definition desc_na_last (a b : option Qc) : Prop :=
  match a, b with
  | Some x, Some y => (y <= x)%Qc
  | Some _, None => True
  | None, None => True
  | None, Some _ => False
  end.

(** [v] sits at the latest year of the row that has a value: a position
    whose year no other filled position exceeds; NaN when no position is
    filled. *)
Definition latest_of (cols : list Z) (r : list (option Qc)) (v : option Qc)
  : Prop :=
  match v with
  | Some q =>
      exists j, j < List.length cols /\ nth j r None = Some q /\
        forall k, k < List.length cols -> nth k r None <> None ->
                  (nth k cols 0 <= nth j cols 0)%Z
  | None => forall k, k < List.length cols -> nth k r None = None
  end.


(** The values of the rows of [df] that carry key [k], in row order. *)
Definition values_of (k : key) (rows : list (key * Qc)) : list Qc :=
  map snd (filter (fun r => key_eqb (fst r) k) rows).

(** Strictly ascending keys. *)
Definition key_sorted {V : Type} (l : list (key * V)) : Prop :=
  StronglySorted (fun a b => key_compare (fst a) (fst b) = Lt) l.

(** The number at position [i] of a float array (0 stands in for NaN). *)
Definition valat (items : list (option Qc)) (i : nat) : Qc :=
  match nth i items None with
  | Some v => v
  | None => 0%Qc
  end.

(** The sum of a row as position [i] of the pivot has it. *)
Definition sum_at (p : Pivot) (i : nat) : Qc :=
  sum_skipna (nth i (map snd (rows p)) []).

(** Rows in which every country has a value in the last year. *)
Definition full_rows : list (key * Qc) :=
  [ (("A"%string, 2020%Z), Qc_of_Z 1); (("A"%string, 2021%Z), Qc_of_Z 2);
    (("B"%string, 2021%Z), Qc_of_Z 3) ].

(** ** The script from the rows read to the pivot *)

(** Lines 34-61 in one piece: [pivot] as the script has it after
    [pivot.sort_index()]. *)
Definition pivot_of (to_numeric : string -> option Qc) (pop : dict Qc)
           (df : list Observation) : Pivot :=
  sort_index (pivot_table (df_ratio to_numeric (merged pop df))).

(** A row with at least one filled cell. *)
Definition has_value (r : list (option Qc)) : bool := existsb notna r.

(** ** The year column as pandas holds it (lines 50-52) *)

(** A numeric year field as [pd.to_numeric] leaves it in the float64
    column: a finite number, or an infinity (the fields "inf", "-inf"
    and the like).  NaN, the outcome of a field that is not numeric, is
    [None].  A column whose fields are all whole numbers of the int64
    range is held as int64 by pandas, and the cast changes nothing on
    it, as [float_to_int64] changes nothing on these numbers.  (A column
    of whole numbers of which one exceeds INT64_MAX and none 2^64 - 1 is
    held as uint64; that column is not modelled.) *)
Inductive year_value : Type :=
| year_finite (q : Qc)
| year_inf.

Definition INT64_MIN : Z := (- 2 ^ 63)%Z.
Definition INT64_MAX : Z := (2 ^ 63 - 1)%Z.

(** numpy's cast of one finite float64 to int64 as an x86-64 processor
    does it: the value cut toward zero, and INT64_MIN when that is not
    an int64. *)
Definition float_to_int64 (q : Qc) : Z :=
  let z := astype_int q in
  if ((INT64_MIN <=? z) && (z <=? INT64_MAX))%Z then z else INT64_MIN.

(** [df_ratio["TIME_PERIOD"].astype(int)], line 52, on the rows that
    line 51 has kept: pandas raises IntCastingNaNError as soon as one
    value of the column is not finite ([None]: the run stops there), and
    casts value by value otherwise. *)
Fixpoint astype_int64 (rows : list (string * year_value * Qc))
  : option (list (key * Qc)) :=
  match rows with
  | [] => Some []
  | (c, year_inf, v) :: _ => None
  | (c, year_finite q, v) :: rows' =>
      match astype_int64 rows' with
      | Some ks => Some ((c, float_to_int64 q, v) :: ks)
      | None => None
      end
  end.

Section AggregatorInt64.

(** [pd.to_numeric(_, errors="coerce")] on one field. *)
Variable to_numeric : string -> option year_value.

(** Lines 50-51: the year coerced, the rows with a NaN year or a NaN
    ratio dropped. *)
Definition dropna_rows (df : list Merged) : list (string * year_value * Qc) :=
  flat_map (fun r =>
    match to_numeric (TIME_PERIOD (m_obs r)), Patents_per_million r with
    | Some t, Some v => [(COUNTRY (m_obs r), t, v)]
    | _, _ => []
    end) df.

(** Lines 50-52. *)
Definition int_rows (df : list Merged) : option (list (key * Qc)) :=
  astype_int64 (dropna_rows df).

(** Lines 50-61: [pivot] after [sort_index], when the run gets there. *)
Definition pivot_int64 (df : list Merged) : option Pivot :=
  match int_rows df with
  | Some rows => Some (sort_index (pivot_table (groupby_mean rows)))
  | None => None
  end.

End AggregatorInt64.

(** Decimal numerals and "inf", read as [to_numeric] reads them. *)
Definition number_of_field (s : string) : option year_value :=
  if String.eqb s "inf" then Some year_inf
  else option_map year_finite (numeric_of_digits s).

(** Three observations of countries of the script's table, the second
    dated "inf"; and the other two alone. *)
Definition inf_observations : list Observation :=
  [ obs "AUS" "2020" 27; obs "AUS" "inf" 54; obs "DEU" "2020" 83 ].

Definition finite_observations : list Observation :=
  [ obs "AUS" "2020" 27; obs "DEU" "2020" 83 ].

(** [z] is [q] cut toward zero: the whole number less than 1 away from
    [q] on the side of 0. *)
Definition truncation_of (q : Qc) (z : Z) : Prop :=
  ((0 <= q)%Qc -> (Qc_of_Z z <= q)%Qc /\ (q < Qc_of_Z z + 1)%Qc) /\
  ((q <= 0)%Qc -> (q <= Qc_of_Z z)%Qc /\ (Qc_of_Z z - 1 < q)%Qc).


(* ================================================================= *)
(** * Proofs *)

(** ** Facts on the comparisons *)

Lemma Qcltb_lt (x y : Qc) : Qcltb x y = true <-> (x < y)%Qc.
Proof.
  unfold Qcltb. rewrite Qclt_alt.
  destruct (x ?= y)%Qc; split; congruence.
Qed.

Lemma Qcleb_le (x y : Qc) : Qcleb x y = true <-> (x <= y)%Qc.
Proof.
  unfold Qcleb. rewrite Qcle_alt.
  destruct (x ?= y)%Qc; split; congruence.
Qed.

Lemma Qcleb_false_lt (x y : Qc) : Qcleb x y = false -> (y < x)%Qc.
Proof.
  intro H. apply Qcnot_le_lt. intro Hle.
  apply Qcleb_le in Hle. congruence.
Qed.

Lemma Qcltb_false_le (x y : Qc) : Qcltb x y = false -> (y <= x)%Qc.
Proof.
  intro H. apply Qcnot_lt_le. intro Hlt.
  apply Qcltb_lt in Hlt. congruence.
Qed.

Lemma gt0_Some (p : option Qc) :
  gt0 p = true <-> exists q, p = Some q /\ (0 < q)%Qc.
Proof.
  destruct p as [q|]; simpl.
  - rewrite Qcltb_lt. split.
    + intro H. exists q. auto.
    + intros (q' & E & H). injection E as ->. exact H.
  - split; [discriminate | intros (q & E & _); discriminate].
Qed.

(** ** Lists *)

Lemma take_seq {A : Type} (d : A) (l : list A) :
  take d l (seq 0 (List.length l)) = l.
Proof.
  unfold take. induction l as [|a l IH]; simpl; [reflexivity|].
  f_equal. rewrite <- seq_shift, map_map. exact IH.
Qed.

Lemma take_perm {A : Type} (d : A) (l : list A) (idx : list nat) :
  Permutation idx (seq 0 (List.length l)) -> Permutation (take d l idx) l.
Proof.
  intro H. rewrite <- (take_seq d l) at 2.
  unfold take. apply Permutation_map. exact H.
Qed.

Lemma take_map {A B : Type} (f : A -> B) (d : A) (l : list A) (idx : list nat) :
  map f (take d l idx) = take (f d) (map f l) idx.
Proof.
  unfold take. rewrite map_map. apply map_ext.
  intro i. symmetry. apply map_nth.
Qed.

Lemma StronglySorted_app {A : Type} (R : A -> A -> Prop) (l1 l2 : list A) :
  StronglySorted R l1 -> StronglySorted R l2 ->
  (forall x y, In x l1 -> In y l2 -> R x y) ->
  StronglySorted R (l1 ++ l2).
Proof.
  induction l1 as [|a l1 IH]; simpl; intros H1 H2 H; [exact H2|].
  inversion H1; subst. constructor.
  - apply IH; auto.
  - apply Forall_app. split; [assumption|].
    apply Forall_forall. intros y Hy. apply H; auto.
Qed.

Lemma StronglySorted_app_inv {A : Type} (R : A -> A -> Prop) (l1 l2 : list A) :
  StronglySorted R (l1 ++ l2) ->
  StronglySorted R l1 /\ StronglySorted R l2 /\
  (forall x y, In x l1 -> In y l2 -> R x y).
Proof.
  induction l1 as [|a l1 IH]; simpl; intro H.
  - repeat split; [constructor | exact H | intros x y []].
  - inversion H; subst. destruct (IH H2) as (S1 & S2 & S3).
    apply Forall_app in H3. destruct H3 as [F1 F2].
    repeat split.
    + constructor; assumption.
    + assumption.
    + intros x y [<-|Hx] Hy.
      * rewrite Forall_forall in F2. auto.
      * auto.
Qed.

Lemma StronglySorted_rev {A : Type} (R : A -> A -> Prop) (l : list A) :
  StronglySorted R l -> StronglySorted (fun a b => R b a) (rev l).
Proof.
  induction 1 as [|a l HS IH HF]; simpl; [constructor|].
  apply StronglySorted_app.
  - exact IH.
  - repeat constructor.
  - intros x y Hx [<-|[]]. apply in_rev in Hx.
    rewrite Forall_forall in HF. auto.
Qed.

Lemma StronglySorted_weaken {A : Type} (R R' : A -> A -> Prop) (l : list A) :
  (forall x y, In x l -> In y l -> R x y -> R' x y) ->
  StronglySorted R l -> StronglySorted R' l.
Proof.
  intros H HS. induction HS as [|a l HS IH HF]; constructor.
  - apply IH. intros; apply H; simpl; auto.
  - rewrite Forall_forall in *. intros y Hy.
    apply H; simpl; auto.
Qed.

Lemma StronglySorted_map {A B : Type} (R : B -> B -> Prop) (f : A -> B)
      (l : list A) :
  StronglySorted (fun x y => R (f x) (f y)) l -> StronglySorted R (map f l).
Proof.
  induction 1 as [|a l HS IH HF]; simpl; constructor; [exact IH|].
  rewrite Forall_forall in *. intros y Hy.
  apply in_map_iff in Hy. destruct Hy as (x & <- & Hx). auto.
Qed.

Lemma StronglySorted_map_inv {A B : Type} (R : B -> B -> Prop) (f : A -> B)
      (l : list A) :
  StronglySorted R (map f l) -> StronglySorted (fun x y => R (f x) (f y)) l.
Proof.
  induction l as [|a l IH]; simpl; intro H; [constructor|].
  inversion H; subst. constructor; [auto|].
  rewrite Forall_forall in *. intros y Hy. apply H3. apply in_map. exact Hy.
Qed.

(** ** Insertion sort *)

Lemma insert_by_perm {A : Type} (le : A -> A -> bool) (x : A) (l : list A) :
  Permutation (insert_by le x l) (x :: l).
Proof.
  induction l as [|y l IH]; simpl; [reflexivity|].
  destruct (le y x); [|reflexivity].
  rewrite IH. apply perm_swap.
Qed.

Lemma isort_snoc {A : Type} (le : A -> A -> bool) (l : list A) (x : A) :
  isort le (l ++ [x]) = insert_by le x (isort le l).
Proof. unfold isort. rewrite fold_left_app. reflexivity. Qed.

Lemma isort_perm {A : Type} (le : A -> A -> bool) (l : list A) :
  Permutation (isort le l) l.
Proof.
  induction l as [|x l IH] using rev_ind; [reflexivity|].
  rewrite isort_snoc, insert_by_perm, IH.
  apply Permutation_cons_append.
Qed.

Lemma insert_by_sorted {A : Type} (le : A -> A -> bool) (R : A -> A -> Prop)
      (x : A) (l : list A) :
  (forall a b c, R a b -> R b c -> R a c) ->
  (forall y, In y l -> le y x = true -> R y x) ->
  (forall y, In y l -> le y x = false -> R x y) ->
  StronglySorted R l -> StronglySorted R (insert_by le x l).
Proof.
  intros Htr. induction l as [|y l IH]; simpl; intros Ht Hf HS.
  - repeat constructor.
  - inversion HS; subst. destruct (le y x) eqn:E.
    + constructor.
      * apply IH; auto.
      * apply Forall_forall. intros z Hz.
        apply (Permutation_in _ (insert_by_perm le x l)) in Hz.
        destruct Hz as [<-|Hz]; [auto|].
        rewrite Forall_forall in H2. auto.
    + constructor; [exact HS|].
      constructor; [auto|].
      rewrite Forall_forall in *. intros z Hz.
      apply Htr with y; auto.
Qed.

Lemma isort_sorted {A : Type} (le : A -> A -> bool) (R : A -> A -> Prop)
      (l : list A) :
  (forall a b c, R a b -> R b c -> R a c) ->
  (forall a b, le a b = true -> R a b) ->
  (forall a b, le a b = false -> R b a) ->
  StronglySorted R (isort le l).
Proof.
  intros Htr Ht Hf.
  induction l as [|x l IH] using rev_ind; [constructor|].
  rewrite isort_snoc. apply insert_by_sorted; auto.
Qed.

(** ** The two kernels *)

Lemma argsort_insertion_ok : argsort_ok argsort_insertion.
Proof.
  intro xs. unfold argsort_insertion. split.
  - apply isort_perm.
  - apply isort_sorted.
    + intros a b c. apply Qcle_trans.
    + intros a b H. apply Qcleb_le. exact H.
    + intros a b H. apply Qclt_le_weak, Qcleb_false_lt. exact H.
Qed.

Ltac order_facts :=
  repeat match goal with
         | H : Qcltb _ _ = true |- _ => apply Qcltb_lt in H
         | H : Qcltb _ _ = false |- _ => apply Qcltb_false_le in H
         end;
  unfold Qcle, Qclt in *.

Ltac small_perm :=
  apply NoDup_Permutation;
  [ repeat constructor; simpl; intuition discriminate
  | repeat constructor; simpl; intuition discriminate
  | intro x; simpl; intuition ].

Ltac small_sorted :=
  repeat constructor; simpl; unfold Qcle; lra.

Ltac split_comparisons :=
  repeat (match goal with
          | |- context [Qcltb ?x ?y] => destruct (Qcltb x y) eqn:?
          end; cbn [fst snd]).

Lemma argsort_simd_ok : argsort_ok argsort_simd.
Proof.
  intro xs.
  destruct xs as [|a [|b [|c [|d [|e t]]]]].
  - split; [reflexivity | constructor].
  - split; [reflexivity | repeat constructor].
  - unfold argsort_simd, sort_register, load_lane, coex, key_gtb.
    cbn [List.length nth_error Nat.leb fst snd].
    split_comparisons; cbn [firstn seq]; order_facts;
      (split; [small_perm | small_sorted]).
  - unfold argsort_simd, sort_register, load_lane, coex, key_gtb.
    cbn [List.length nth_error Nat.leb fst snd].
    split_comparisons; cbn [firstn seq]; order_facts;
      (split; [small_perm | small_sorted]).
  - unfold argsort_simd, sort_register, load_lane, coex, key_gtb.
    cbn [List.length nth_error Nat.leb fst snd].
    split_comparisons; cbn [firstn seq]; order_facts;
      (split; [small_perm | small_sorted]).
  - unfold argsort_simd.
    change (List.length (a :: b :: c :: d :: e :: t) <=? 1) with false.
    change (List.length (a :: b :: c :: d :: e :: t) <=? 4) with false.
    apply argsort_insertion_ok.
Qed.

Lemma argsort_insertion_stable : argsort_stable argsort_insertion.
Proof.
  intro xs. unfold argsort_insertion.
  set (v := fun i => nth i xs 0%Qc).
  set (Rc := fun i j => (v i < v j)%Qc \/ (v i = v j /\ i < j)).
  apply StronglySorted_weaken with (R := Rc).
  { intros i j _ _ [Hlt|[_ Hij]] E; [|exact Hij].
    exfalso. apply (Qclt_not_eq _ _ Hlt). exact E. }
  assert (Htr : forall a b c, Rc a b -> Rc b c -> Rc a c).
  { intros a b c [H1|[E1 L1]] [H2|[E2 L2]]; unfold Rc.
    - left. eapply Qclt_trans; eauto.
    - left. rewrite <- E2. exact H1.
    - left. rewrite E1. exact H2.
    - right. split; [congruence | lia]. }
  generalize (List.length xs). intro n.
  induction n as [|n IH]; [constructor|].
  rewrite seq_S, isort_snoc. simpl.
  apply insert_by_sorted; auto.
  - intros y Hy Hle.
    apply (Permutation_in _ (isort_perm _ _)) in Hy.
    apply in_seq in Hy.
    apply Qcleb_le in Hle. apply Qcle_lt_or_eq in Hle.
    destruct Hle as [Hlt|Heq]; [left; exact Hlt | right; split; [exact Heq | lia]].
  - intros y _ Hle. left. apply Qcleb_false_lt. exact Hle.
Qed.

(** ** More on sorted lists *)

Lemma StronglySorted_all {A : Type} (R : A -> A -> Prop) (l : list A) :
  (forall x y, In x l -> In y l -> R x y) -> StronglySorted R l.
Proof.
  induction l as [|a l IH]; intro H; constructor.
  - apply IH. intros; apply H; simpl; auto.
  - apply Forall_forall. intros y Hy. apply H; simpl; auto.
Qed.

Lemma StronglySorted_filter {A : Type} (R : A -> A -> Prop) (f : A -> bool)
      (l : list A) :
  StronglySorted R l -> StronglySorted R (filter f l).
Proof.
  induction 1 as [|a l HS IH HF]; simpl; [constructor|].
  destruct (f a); [|exact IH].
  constructor; [exact IH|].
  rewrite Forall_forall in *. intros y Hy.
  apply filter_In in Hy. apply HF, Hy.
Qed.

Lemma StronglySorted_seq (a n : nat) : StronglySorted lt (seq a n).
Proof.
  revert a. induction n as [|n IH]; intro a; simpl; constructor.
  - apply IH.
  - apply Forall_forall. intros y Hy. apply in_seq in Hy. lia.
Qed.

Lemma StronglySorted_nth {A : Type} (R : A -> A -> Prop) (d : A) (l : list A) :
  StronglySorted R l ->
  forall i j, i < j -> j < List.length l -> R (nth i l d) (nth j l d).
Proof.
  induction 1 as [|a l HS IH HF]; simpl; intros i j Hij Hj; [lia|].
  destruct j as [|j]; [lia|]. destruct i as [|i].
  - rewrite Forall_forall in HF. apply HF. apply nth_In. lia.
  - apply IH; lia.
Qed.

Lemma filter_partition_perm {A : Type} (f : A -> bool) (l : list A) :
  Permutation (filter f l ++ filter (fun x => negb (f x)) l) l.
Proof.
  induction l as [|a l IH]; simpl; [reflexivity|].
  destruct (f a); simpl.
  - constructor. exact IH.
  - symmetry. apply Permutation_cons_app. symmetry. exact IH.
Qed.

Lemma filter_map_S (f : nat -> bool) (l : list nat) :
  filter f (map S l) = map S (filter (fun i => f (S i)) l).
Proof.
  induction l as [|a l IH]; simpl; [reflexivity|].
  destruct (f (S a)); simpl; rewrite IH; reflexivity.
Qed.

(** ** [nargsort] *)

Lemma dropna_positions (items : list (option Qc)) :
  dropna items =
  map (valat items)
      (filter (fun i => notna (nth i items None)) (seq 0 (List.length items))).
Proof.
  induction items as [|a t IH]; [reflexivity|].
  cbn [List.length seq]. rewrite <- seq_shift.
  cbn [filter]. rewrite filter_map_S.
  destruct a as [v|]; cbn [nth notna dropna map].
  - rewrite map_map. unfold valat at 1. cbn [nth].
    f_equal. exact IH.
  - rewrite map_map. exact IH.
Qed.

Section SorterFacts.

Variable argsort : list Qc -> list nat.
Hypothesis argsort_spec : argsort_ok argsort.

Lemma nargsort_desc_eq (items : list (option Qc)) :
  nargsort_desc argsort items = rev (indexer argsort items) ++ nan_idx items.
Proof. reflexivity. Qed.

Lemma rev_dropna_positions (items : list (option Qc)) :
  rev (dropna items) = map (valat items) (rev (non_nan_idx items)).
Proof. rewrite dropna_positions, map_rev. reflexivity. Qed.

Lemma indexer_perm (items : list (option Qc)) :
  Permutation (indexer argsort items) (non_nan_idx items).
Proof.
  unfold indexer. rewrite (Permutation_rev (non_nan_idx items)) at 2.
  apply take_perm.
  destruct (argsort_spec (rev (dropna items))) as [Hp _].
  rewrite Hp, rev_dropna_positions, length_map. reflexivity.
Qed.

Lemma nargsort_desc_perm (items : list (option Qc)) :
  Permutation (nargsort_desc argsort items) (seq 0 (List.length items)).
Proof.
  rewrite nargsort_desc_eq, <- Permutation_rev, indexer_perm.
  apply filter_partition_perm.
Qed.

Lemma indexer_ascending (items : list (option Qc)) :
  StronglySorted (fun i j => (valat items i <= valat items j)%Qc)
                 (indexer argsort items).
Proof.
  unfold indexer, take. apply StronglySorted_map.
  destruct (argsort_spec (rev (dropna items))) as [Hp Hs].
  revert Hs. apply StronglySorted_weaken.
  intros k k' Hk Hk' H.
  apply (Permutation_in _ Hp) in Hk, Hk'.
  apply in_seq in Hk, Hk'.
  rewrite rev_dropna_positions in *. rewrite length_map in Hk, Hk'.
  rewrite (nth_indep _ 0%Qc (valat items 0)) in H by (rewrite length_map; lia).
  rewrite (nth_indep _ 0%Qc (valat items 0)) in H by (rewrite length_map; lia).
  rewrite !map_nth in H. exact H.
Qed.

Lemma non_nan_idx_Some (items : list (option Qc)) (i : nat) :
  In i (non_nan_idx items) -> nth i items None = Some (valat items i).
Proof.
  unfold non_nan_idx, valat. intro H. apply filter_In in H.
  destruct H as [_ H]. destruct (nth i items None); [reflexivity|discriminate].
Qed.

Lemma nan_idx_None (items : list (option Qc)) (i : nat) :
  In i (nan_idx items) -> nth i items None = None.
Proof.
  unfold nan_idx, isna. intro H. apply filter_In in H.
  destruct H as [_ H]. destruct (nth i items None); [discriminate|reflexivity].
Qed.

Lemma nargsort_desc_sorted (items : list (option Qc)) :
  StronglySorted
    (fun i j => desc_na_last (nth i items None) (nth j items None))
    (nargsort_desc argsort items).
Proof.
  rewrite nargsort_desc_eq. apply StronglySorted_app.
  - apply StronglySorted_weaken
      with (R := fun i j => (valat items j <= valat items i)%Qc).
    + intros i j Hi Hj H.
      apply in_rev in Hi, Hj.
      apply (Permutation_in _ (indexer_perm items)) in Hi, Hj.
      rewrite (non_nan_idx_Some _ _ Hi), (non_nan_idx_Some _ _ Hj).
      exact H.
    + apply (StronglySorted_rev _ _ (indexer_ascending items)).
  - apply StronglySorted_all. intros i j Hi Hj.
    rewrite (nan_idx_None _ _ Hi), (nan_idx_None _ _ Hj). exact I.
  - intros i j Hi Hj. apply in_rev in Hi.
    apply (Permutation_in _ (indexer_perm items)) in Hi.
    rewrite (non_nan_idx_Some _ _ Hi), (nan_idx_None _ _ Hj). exact I.
Qed.

Lemma nargsort_desc_stable (items : list (option Qc)) :
  argsort_stable argsort ->
  StronglySorted
    (fun i j => nth i items None = nth j items None -> i < j)
    (nargsort_desc argsort items).
Proof.
  intro Hst. rewrite nargsort_desc_eq. apply StronglySorted_app.
  - apply StronglySorted_weaken
      with (R := fun i j => valat items j = valat items i -> i < j).
    + intros i j Hi Hj H E.
      apply in_rev in Hi, Hj.
      apply (Permutation_in _ (indexer_perm items)) in Hi, Hj.
      rewrite (non_nan_idx_Some _ _ Hi), (non_nan_idx_Some _ _ Hj) in E.
      apply H. congruence.
    + apply (StronglySorted_rev
               (fun a b => valat items a = valat items b -> b < a)).
      unfold indexer, take. apply StronglySorted_map.
      destruct (argsort_spec (rev (dropna items))) as [Hp _].
      generalize (Hst (rev (dropna items))).
      apply StronglySorted_weaken.
      intros k k' Hk Hk' H E.
      apply (Permutation_in _ Hp) in Hk, Hk'.
      apply in_seq in Hk, Hk'.
      rewrite rev_dropna_positions in *. rewrite length_map in Hk, Hk'.
      rewrite (nth_indep _ 0%Qc (valat items 0)) in H by (rewrite length_map; lia).
      rewrite (nth_indep _ 0%Qc (valat items 0)) in H by (rewrite length_map; lia).
      rewrite !map_nth in H. specialize (H E).
      apply (StronglySorted_nth (fun a b => b < a) 0 (rev (non_nan_idx items)));
        [|exact H|lia].
      apply StronglySorted_rev. unfold non_nan_idx.
      apply StronglySorted_filter, StronglySorted_seq.
  - apply StronglySorted_weaken with (R := lt); [auto|].
    unfold nan_idx. apply StronglySorted_filter, StronglySorted_seq.
  - intros i j Hi Hj E. apply in_rev in Hi.
    apply (Permutation_in _ (indexer_perm items)) in Hi.
    rewrite (non_nan_idx_Some _ _ Hi), (nan_idx_None _ _ Hj) in E.
    discriminate.
Qed.

(** ** [sort_values] *)

Lemma sort_values_desc_perm (s : Series) :
  Permutation (sort_values_desc argsort s) s.
Proof.
  unfold sort_values_desc. apply take_perm.
  rewrite nargsort_desc_perm, length_map. reflexivity.
Qed.

Lemma sort_values_desc_values (s : Series) :
  map snd (sort_values_desc argsort s) =
  take None (map snd s) (nargsort_desc argsort (map snd s)).
Proof. unfold sort_values_desc. apply (take_map snd). Qed.

Lemma sort_values_desc_labels (s : Series) :
  map fst (sort_values_desc argsort s) =
  take EmptyString (map fst s) (nargsort_desc argsort (map snd s)).
Proof. unfold sort_values_desc. apply (take_map fst). Qed.

Lemma sort_values_desc_sorted (s : Series) :
  StronglySorted (fun a b => desc_na_last (snd a) (snd b))
                 (sort_values_desc argsort s).
Proof.
  apply StronglySorted_map_inv with (f := snd) (R := desc_na_last).
  rewrite sort_values_desc_values. unfold take.
  apply StronglySorted_map, nargsort_desc_sorted.
Qed.

End SorterFacts.

(** ** Columns, years and the mode string *)

Lemma col_pos_Some (cols : list Z) (y : Z) (j : nat) :
  col_pos cols y = Some j -> j < List.length cols /\ nth j cols 0%Z = y.
Proof.
  revert j. induction cols as [|c cols IH]; simpl; intros j H; [discriminate|].
  destruct (Z.eqb_spec c y) as [->|Hne].
  - injection H as <-. split; [lia | reflexivity].
  - destruct (col_pos cols y) as [j'|]; [|discriminate].
    injection H as <-. destruct (IH j' eq_refl). split; [lia | assumption].
Qed.

Lemma col_pos_In (cols : list Z) (y : Z) :
  In y cols <-> exists j, col_pos cols y = Some j.
Proof.
  split.
  - induction cols as [|c cols IH]; simpl; intro H; [contradiction|].
    destruct (Z.eqb_spec c y) as [_|Hne]; [eexists; reflexivity|].
    destruct H as [H|H]; [contradiction|].
    destruct (IH H) as [j ->]. eexists; reflexivity.
  - intros [j H]. apply col_pos_Some in H. destruct H as [Hj <-].
    apply nth_In. exact Hj.
Qed.

Lemma in_columns_In (y : Z) (p : Pivot) :
  in_columns y p = true <-> In y (columns p).
Proof.
  unfold in_columns. rewrite col_pos_In.
  destruct (col_pos (columns p) y); simpl; split; eauto.
  - discriminate.
  - intros [j H]. discriminate.
Qed.

Lemma getitem_In (p : Pivot) (y : Z) :
  In y (columns p) -> exists s, getitem p y = Some s.
Proof.
  intro H. apply col_pos_In in H. destruct H as [j H].
  unfold getitem. rewrite H. eexists; reflexivity.
Qed.

Lemma getitem_labels (p : Pivot) (y : Z) (s : Series) :
  getitem p y = Some s -> map fst s = index p.
Proof.
  unfold getitem, index. destruct (col_pos (columns p) y); [|discriminate].
  intro H. injection H as <-. rewrite map_map. reflexivity.
Qed.



Lemma sorted_In (l : list Z) (y : Z) : In y (sorted l) <-> In y l.
Proof.
  unfold sorted. split; apply Permutation_in;
    [|symmetry]; apply isort_perm.
Qed.

Lemma fold_max_spec (ys : list Z) (a : Z) :
  In (fold_left Z.max ys a) (a :: ys) /\
  forall y, In y (a :: ys) -> (y <= fold_left Z.max ys a)%Z.
Proof.
  revert a. induction ys as [|b ys IH]; intro a; simpl.
  - split; [auto | intros y [<-|[]]; lia].
  - destruct (IH (Z.max a b)) as [Hin Hle]. split.
    + destruct Hin as [E|Hin]; [|auto].
      rewrite <- E. destruct (Z.max_spec a b) as [[_ ->]|[_ ->]]; auto.
    + intros y Hy.
      assert (Z.max a b <= fold_left Z.max ys (Z.max a b))%Z
        by (apply Hle; simpl; auto).
      destruct Hy as [<-|[<-|Hy]]; [lia | lia |].
      apply Hle. simpl. auto.
Qed.

Lemma max_years_spec (years : list Z) (m : Z) :
  max_years years = Some m ->
  In m years /\ forall y, In y years -> (y <= m)%Z.
Proof.
  destruct years as [|a ys]; simpl; [discriminate|].
  intro H. injection H as <-. apply fold_max_spec.
Qed.


Lemma prefix_append (s1 s2 : string) :
  String.prefix s1 s2 = true -> exists rest, s2 = (s1 ++ rest)%string.
Proof.
  revert s2. induction s1 as [|a s1 IH]; intros s2 H.
  - exists s2. reflexivity.
  - destruct s2 as [|b s2]; [discriminate|].
    cbn [String.prefix] in H. destruct (ascii_dec a b) as [->|]; [|discriminate].
    destruct (IH s2 H) as [rest ->]. exists rest. reflexivity.
Qed.

Lemma startswith_year (mode : string) :
  startswith mode "year:" = true ->
  exists rest, mode = ("year:" ++ rest)%string.
Proof. apply prefix_append. Qed.

Lemma startswith_year_app (rest : string) :
  startswith ("year:" ++ rest) "year:" = true.
Proof. unfold startswith. destruct rest; reflexivity. Qed.

(** ** The latest value of a row *)

Lemma last_cons_default {A : Type} (ws : list A) (w v : A) :
  last (w :: ws) v = last ws w.
Proof.
  revert w v. induction ws as [|x ws IH]; intros w v; [reflexivity|].
  change (last (w :: x :: ws) v) with (last (x :: ws) v).
  rewrite (IH x v), (IH x w). reflexivity.
Qed.

Lemma latest_val_Some (r : list (option Qc)) (q : Qc) :
  latest_val r = Some q ->
  exists r1 r2, r = r1 ++ Some q :: r2 /\ Forall (fun c => c = None) r2.
Proof.
  unfold latest_val. revert q.
  induction r as [|c r IH]; simpl; intros q H; [discriminate|].
  destruct c as [v|].
  - destruct (dropna r) as [|w ws] eqn:E.
    + simpl in H. injection H as <-.
      exists [], r. split; [reflexivity|].
      clear IH. induction r as [|[u|] r IHr]; simpl in E;
        [constructor | discriminate | constructor; auto].
    + destruct (IH q) as (r1 & r2 & -> & HF).
      { rewrite <- H. f_equal. symmetry. apply last_cons_default. }
      exists (Some v :: r1), r2. split; [reflexivity | exact HF].
  - destruct (IH q H) as (r1 & r2 & -> & HF).
    exists (None :: r1), r2. split; [reflexivity | exact HF].
Qed.

Lemma latest_val_None (r : list (option Qc)) :
  latest_val r = None -> Forall (fun c => c = None) r.
Proof.
  unfold latest_val.
  induction r as [|[v|] r IH]; simpl; intro H.
  - constructor.
  - discriminate.
  - constructor; [reflexivity | auto].
Qed.

Lemma latest_sorted_columns (cols : list Z) (r : list (option Qc)) :
  latest_of cols r
    (latest_val
       (take None r
          (isort (fun i j => Z.leb (nth i cols 0%Z) (nth j cols 0%Z))
                 (seq 0 (List.length cols))))).
Proof.
  set (perm := isort _ _).
  assert (Hp : Permutation perm (seq 0 (List.length cols)))
    by apply isort_perm.
  assert (Hs : StronglySorted
                 (fun i j => (nth i cols 0 <= nth j cols 0)%Z) perm).
  { apply isort_sorted.
    - intros a b c. apply Z.le_trans.
    - intros a b H. apply Z.leb_le. exact H.
    - intros a b H. apply Z.leb_gt in H. lia. }
  assert (Hin : forall k, k < List.length cols -> In k perm).
  { intros k Hk. apply (Permutation_in _ (Permutation_sym Hp)).
    apply in_seq. lia. }
  destruct (latest_val (take None r perm)) as [q|] eqn:E; simpl.
  - apply latest_val_Some in E. destruct E as (r1 & r2 & E & HF).
    unfold take in E. apply map_eq_app in E.
    destruct E as (p1 & p2' & Eperm & E1 & E2).
    apply map_eq_cons in E2. destruct E2 as (j & p2 & -> & Ej & E2).
    subst r2. exists j. split; [|split].
    + assert (In j perm) by (rewrite Eperm; apply in_elt).
      apply (Permutation_in _ Hp), in_seq in H. lia.
    + exact Ej.
    + intros k Hk Hne. specialize (Hin k Hk). rewrite Eperm in Hin.
      rewrite Eperm in Hs.
      apply in_app_or in Hin. destruct Hin as [H1|[<-|H2]].
      * apply StronglySorted_app_inv in Hs.
        destruct Hs as (_ & _ & Hc). apply Hc; simpl; auto.
      * lia.
      * exfalso. apply Hne. rewrite Forall_forall in HF.
        apply HF. apply in_map_iff. exists k. auto.
  - apply latest_val_None in E. intros k Hk.
    rewrite Forall_forall in E. apply E.
    unfold take. apply in_map_iff. exists k. auto.
Qed.

Lemma latest_vals_labels (p : Pivot) : map fst (latest_vals p) = index p.
Proof.
  unfold latest_vals, sort_columns, index. simpl.
  rewrite !map_map. reflexivity.
Qed.

Lemma pivot_sum_labels (p : Pivot) : map fst (pivot_sum p) = index p.
Proof. unfold pivot_sum, index. rewrite map_map. reflexivity. Qed.

Lemma sum_skipna_dropna (r : list (option Qc)) :
  sum_skipna r = Qc_sum (dropna r).
Proof.
  unfold sum_skipna, Qc_sum. generalize 0%Qc.
  induction r as [|[v|] r IH]; intro a; simpl; auto.
Qed.

Lemma pivot_sum_value (p : Pivot) (i : nat) :
  i < List.length (rows p) ->
  nth i (map snd (pivot_sum p)) None = Some (sum_at p i).
Proof.
  intro Hi. unfold pivot_sum, sum_at. rewrite map_map. cbn [snd].
  rewrite <- (map_map snd (fun r => Some (sum_skipna r))).
  rewrite (nth_indep _ None (Some (sum_skipna []))) by (rewrite !length_map; exact Hi).
  apply (map_nth (fun r => Some (sum_skipna r))).
Qed.

(* ================================================================= *)
(** * The bar order (lines 72-90) *)

Section Order.

Variable argsort : list Qc -> list nat.
Variable py_int : string -> option Z.
Hypothesis argsort_spec : argsort_ok argsort.

Lemma categories_total (p : Pivot) :
  categories argsort py_int "total" p =
  Some (map fst (sort_values_desc argsort (pivot_sum p))).
Proof. reflexivity. Qed.

Lemma categories_year (rest : string) (p : Pivot) :
  categories argsort py_int ("year:" ++ rest) p =
  let years := sorted (columns p) in
  let y := match py_int rest with
           | Some n => Some n
           | None => max_years years
           end in
  let y := match y with
           | None => max_years years
           | Some n => if in_columns n p then Some n else max_years years
           end in
  match y with
  | None => Some (index p)
  | Some n =>
      match getitem p n with
      | Some s => Some (map fst (sort_values_desc argsort s))
      | None => None
      end
  end.
Proof.
  unfold categories.
  change (String.eqb ("year:" ++ rest) "total") with false.
  rewrite startswith_year_app. reflexivity.
Qed.

Lemma categories_latest (mode : string) (p : Pivot) :
  mode <> "total"%string -> startswith mode "year:" = false ->
  categories argsort py_int mode p =
  Some (map fst (sort_values_desc argsort (latest_vals p))).
Proof.
  intros Ht Hy. unfold categories.
  apply String.eqb_neq in Ht. rewrite Ht, Hy. reflexivity.
Qed.

(** The column the "year:" policy sorts by exists whenever the table has
    a column at all. *)
Lemma max_years_column (p : Pivot) (m : Z) :
  max_years (sorted (columns p)) = Some m -> In m (columns p).
Proof.
  intro H. apply max_years_spec in H. apply sorted_In, H.
Qed.

(** C1 (as amended). Under "total" the bar order lists the positions of
    the pivot index in descending order of the row sums, each sum being
    the sum of the non-missing cells of the row, and each position once.
    Rows with equal sums come in index order whenever numpy's sorting
    kernel is stable; the ordering contract of the kernel alone does not
    fix their order. *)
Theorem total_order_descending (p : Pivot) :
  let perm := nargsort_desc argsort (map snd (pivot_sum p)) in
  categories argsort py_int "total" p
    = Some (take EmptyString (index p) perm) /\
  Permutation perm (seq 0 (List.length (index p))) /\
  StronglySorted (fun i j => (sum_at p j <= sum_at p i)%Qc) perm /\
  (forall i, sum_at p i = Qc_sum (dropna (nth i (map snd (rows p)) []))) /\
  (argsort_stable argsort ->
   StronglySorted (fun i j => sum_at p i = sum_at p j -> i < j) perm).
Proof.
  intro perm.
  assert (Hlen : List.length (map snd (pivot_sum p)) = List.length (index p)).
  { unfold pivot_sum, index. rewrite !length_map. reflexivity. }
  assert (Hp : Permutation perm (seq 0 (List.length (index p)))).
  { rewrite <- Hlen. apply nargsort_desc_perm, argsort_spec. }
  assert (Hin : forall i, In i perm -> i < List.length (rows p)).
  { intros i Hi. apply (Permutation_in _ Hp), in_seq in Hi.
    unfold index in Hi. rewrite length_map in Hi. lia. }
  split; [|split; [exact Hp|split; [|split]]].
  - rewrite categories_total, (sort_values_desc_labels argsort).
    rewrite pivot_sum_labels. reflexivity.
  - generalize (nargsort_desc_sorted argsort argsort_spec (map snd (pivot_sum p))).
    apply StronglySorted_weaken. intros i j Hi Hj.
    rewrite !pivot_sum_value by auto. exact (fun H => H).
  - intro i. apply sum_skipna_dropna.
  - intro Hst.
    generalize (nargsort_desc_stable argsort argsort_spec
                  (map snd (pivot_sum p)) Hst).
    apply StronglySorted_weaken. intros i j Hi Hj H E.
    apply H. rewrite !pivot_sum_value by auto. congruence.
Qed.


(** C6. Under "latest" the key of a country is the value at the latest
    year of its row that has one, and the bar order lists the countries
    in descending order of that key. *)
Theorem latest_order_descending (p : Pivot) :
  let s := sort_values_desc argsort (latest_vals p) in
  categories argsort py_int "latest" p = Some (map fst s) /\
  Permutation s (latest_vals p) /\
  StronglySorted (fun a b => desc_na_last (snd a) (snd b)) s /\
  Forall2 (fun r kv => fst kv = fst r /\
                       latest_of (columns p) (snd r) (snd kv))
          (rows p) (latest_vals p).
Proof.
  intro s. split; [|split; [|split]].
  - apply categories_latest; [discriminate | reflexivity].
  - apply sort_values_desc_perm, argsort_spec.
  - apply sort_values_desc_sorted, argsort_spec.
  - unfold latest_vals, sort_columns. cbn [rows]. rewrite map_map. cbn [fst snd].
    induction (rows p) as [|r rs IH]; simpl; constructor; [|exact IH].
    split; [reflexivity|]. apply latest_sorted_columns.
Qed.

(** C10. A mode that is neither "total" nor starts with "year:" takes
    the branch of "latest"; it yields a bar order and is not rejected. *)
Theorem unknown_mode_is_latest (mode : string) (p : Pivot) :
  mode <> "total"%string -> startswith mode "year:" = false ->
  categories argsort py_int mode p = categories argsort py_int "latest" p /\
  exists cats, categories argsort py_int mode p = Some cats.
Proof.
  intros Ht Hy. rewrite (categories_latest mode p Ht Hy).
  rewrite (categories_latest "latest" p) by (discriminate || reflexivity).
  split; [reflexivity | eexists; reflexivity].
Qed.

End Order.

(* ================================================================= *)
(** * Keys and groups (lines 54-61) *)

Lemma key_eqb_eq (a b : key) : key_eqb a b = true <-> a = b.
Proof.
  unfold key_eqb. destruct a as [a1 a2], b as [b1 b2]; simpl.
  rewrite andb_true_iff, String.eqb_eq, Z.eqb_eq.
  split; [intros [-> ->]; reflexivity | intro H; injection H; auto].
Qed.

Lemma key_eqb_refl (a : key) : key_eqb a a = true.
Proof. apply key_eqb_eq. reflexivity. Qed.

Lemma key_eqb_neq (a b : key) : key_eqb a b = false <-> a <> b.
Proof.
  rewrite <- key_eqb_eq. destruct (key_eqb a b); split; congruence.
Qed.

Lemma string_compare_refl (s : string) : String.compare s s = Eq.
Proof. apply (proj2 (String_as_OT.cmp_eq s s)). reflexivity. Qed.

Lemma key_compare_eq (a b : key) : key_compare a b = Eq <-> a = b.
Proof.
  unfold key_compare. destruct a as [a1 a2], b as [b1 b2]; simpl.
  destruct (String.compare a1 b1) eqn:E.
  - apply String_as_OT.cmp_eq in E. subst.
    rewrite Z.compare_eq_iff. split; [intros ->; reflexivity|].
    intro H; injection H; auto.
  - split; [discriminate|]. intro H. injection H as H1 _. subst.
    rewrite string_compare_refl in E. discriminate.
  - split; [discriminate|]. intro H. injection H as H1 _. subst.
    rewrite string_compare_refl in E. discriminate.
Qed.

Lemma key_compare_lt (a b : key) :
  key_compare a b = Lt <->
  String.compare (fst a) (fst b) = Lt \/
  (fst a = fst b /\ (snd a < snd b)%Z).
Proof.
  unfold key_compare. destruct (String.compare (fst a) (fst b)) eqn:E.
  - apply String_as_OT.cmp_eq in E. rewrite Z.compare_lt_iff.
    split; [auto|]. intros [H|[_ H]]; [discriminate | exact H].
  - split; auto.
  - split; [discriminate|]. intros [H|[H _]]; [discriminate|].
    rewrite H, string_compare_refl in E. discriminate.
Qed.

Lemma key_compare_antisym (a b : key) :
  key_compare a b = CompOpp (key_compare b a).
Proof.
  unfold key_compare. rewrite String.compare_antisym, Z.compare_antisym.
  destruct (String.compare (fst b) (fst a)); reflexivity.
Qed.

Lemma key_compare_gt (a b : key) :
  key_compare a b = Gt <-> key_compare b a = Lt.
Proof.
  rewrite key_compare_antisym.
  destruct (key_compare b a); simpl; split; congruence.
Qed.

Lemma key_lt_trans (a b c : key) :
  key_compare a b = Lt -> key_compare b c = Lt -> key_compare a c = Lt.
Proof.
  rewrite !key_compare_lt.
  intros [H1|[E1 L1]] [H2|[E2 L2]].
  - left. apply String_as_OT.cmp_lt.
    apply String_as_OT.cmp_lt in H1, H2.
    eapply String_as_OT.lt_trans; eauto.
  - left. rewrite <- E2. exact H1.
  - left. rewrite E1. exact H2.
  - right. split; [congruence | lia].
Qed.

Lemma key_lt_irrefl (a : key) : key_compare a a <> Lt.
Proof.
  rewrite (proj2 (key_compare_eq a a) eq_refl). discriminate.
Qed.

Lemma lookup_below {V : Type} (k : key) (g : list (key * V)) :
  Forall (fun e => key_compare k (fst e) = Lt) g -> lookup k g = None.
Proof.
  induction 1 as [|[k' v] g Hk HF IH]; simpl; [reflexivity|].
  destruct (key_eqb k' k) eqn:E; [|exact IH].
  apply key_eqb_eq in E. subst. simpl in Hk.
  exfalso. exact (key_lt_irrefl _ Hk).
Qed.

Lemma lookup_In {V : Type} (k : key) (v : V) (g : list (key * V)) :
  lookup k g = Some v -> In (k, v) g.
Proof.
  induction g as [|[k' v'] g IH]; simpl; [discriminate|].
  destruct (key_eqb k' k) eqn:E.
  - apply key_eqb_eq in E. intro H. injection H as <-. subst. auto.
  - auto.
Qed.

Lemma In_lookup {V : Type} (k : key) (v : V) (g : list (key * V)) :
  NoDup (map fst g) -> In (k, v) g -> lookup k g = Some v.
Proof.
  induction g as [|[k' v'] g IH]; simpl; intros Hnd Hin; [contradiction|].
  inversion Hnd; subst. destruct Hin as [E|Hin].
  - injection E as -> ->. rewrite key_eqb_refl. reflexivity.
  - destruct (key_eqb k' k) eqn:E; [|auto].
    apply key_eqb_eq in E. subst. exfalso. apply H1.
    apply in_map_iff. exists (k, v). auto.
Qed.

Lemma lookup_map {V W : Type} (f : V -> W) (k : key) (g : list (key * V)) :
  lookup k (map (fun e => (fst e, f (snd e))) g) = option_map f (lookup k g).
Proof.
  induction g as [|[k' v] g IH]; simpl; [reflexivity|].
  destruct (key_eqb k' k); [reflexivity | exact IH].
Qed.

Lemma key_sorted_NoDup {V : Type} (g : list (key * V)) :
  key_sorted g -> NoDup (map fst g).
Proof.
  unfold key_sorted.
  induction 1 as [|e g HS IH HF]; simpl; constructor; [|exact IH].
  intro Hin. apply in_map_iff in Hin. destruct Hin as (e' & E & Hin).
  rewrite Forall_forall in HF. specialize (HF e' Hin).
  rewrite E in HF. exact (key_lt_irrefl _ HF).
Qed.

Lemma group_insert_keys (k : key) (v : Qc) (g : list (key * list Qc))
      (e : key * list Qc) :
  In e (group_insert k v g) ->
  fst e = k \/ exists e', In e' g /\ fst e' = fst e.
Proof.
  induction g as [|[k' vs] g IH]; simpl.
  - intros [<-|[]]. auto.
  - destruct (key_compare k k') eqn:E; simpl.
    + intros [<-|H]; right; [exists (k', vs) | exists e]; auto.
    + intros [<-|[<-|H]]; [left | right; exists (k', vs) | right; exists e];
        auto.
    + intros [<-|H]; [right; exists (k', vs); auto|].
      destruct (IH H) as [?|(e' & ? & ?)]; [auto|].
      right. exists e'. auto.
Qed.

Lemma group_insert_sorted (k : key) (v : Qc) (g : list (key * list Qc)) :
  key_sorted g -> key_sorted (group_insert k v g).
Proof.
  unfold key_sorted.
  induction 1 as [|[k' vs] g HS IH HF]; simpl.
  - repeat constructor.
  - destruct (key_compare k k') eqn:E.
    + constructor; assumption.
    + constructor; [constructor; assumption|].
      constructor; [exact E|].
      rewrite Forall_forall in *. intros e He.
      apply key_lt_trans with k'; [exact E | apply HF, He].
    + constructor; [exact IH|].
      rewrite Forall_forall in *. intros e He.
      apply group_insert_keys in He.
      destruct He as [->|(e' & He' & <-)].
      * apply key_compare_gt. exact E.
      * apply HF, He'.
Qed.

Lemma lookup_group_insert (k : key) (v : Qc) (g : list (key * list Qc))
      (k' : key) :
  key_sorted g ->
  lookup k' (group_insert k v g) =
  if key_eqb k k'
  then Some (match lookup k g with Some vs => vs ++ [v] | None => [v] end)
  else lookup k' g.
Proof.
  unfold key_sorted.
  induction 1 as [|[k0 vs] g HS IH HF]; simpl.
  - destruct (key_eqb k k'); reflexivity.
  - destruct (key_compare k k0) eqn:E; simpl.
    + apply key_compare_eq in E. subst k0. rewrite key_eqb_refl.
      destruct (key_eqb k k'); reflexivity.
    + assert (Hk0 : key_eqb k0 k = false).
      { apply key_eqb_neq. intros ->. exact (key_lt_irrefl _ E). }
      rewrite Hk0.
      rewrite (lookup_below k g).
      * destruct (key_eqb k k'); reflexivity.
      * rewrite Forall_forall in *. intros e He.
        apply key_lt_trans with k0; [exact E | apply HF, He].
    + assert (Hk0 : key_eqb k0 k = false).
      { apply key_eqb_neq. intros ->.
        rewrite (proj2 (key_compare_eq k k) eq_refl) in E. discriminate. }
      rewrite Hk0, IH.
      destruct (key_eqb k k') eqn:Ek; [|reflexivity].
      apply key_eqb_eq in Ek. subst k'. rewrite Hk0. reflexivity.
Qed.

Lemma groups_snoc (rows : list (key * Qc)) (r : key * Qc) :
  groups (rows ++ [r]) = group_insert (fst r) (snd r) (groups rows).
Proof. unfold groups. rewrite fold_left_app. reflexivity. Qed.

Lemma values_of_snoc (k : key) (rows : list (key * Qc)) (r : key * Qc) :
  values_of k (rows ++ [r]) =
  values_of k rows ++ (if key_eqb (fst r) k then [snd r] else []).
Proof.
  unfold values_of. rewrite filter_app, map_app. simpl.
  destruct (key_eqb (fst r) k); reflexivity.
Qed.

Lemma groups_sorted (rows : list (key * Qc)) : key_sorted (groups rows).
Proof.
  induction rows as [|r rows IH] using rev_ind; [constructor|].
  rewrite groups_snoc. apply group_insert_sorted, IH.
Qed.

Lemma groups_lookup (rows : list (key * Qc)) (k : key) :
  lookup k (groups rows) =
  match values_of k rows with
  | [] => None
  | vs => Some vs
  end.
Proof.
  induction rows as [|r rows IH] using rev_ind; [reflexivity|].
  rewrite groups_snoc, values_of_snoc.
  rewrite (lookup_group_insert _ _ _ _ (groups_sorted rows)).
  destruct (key_eqb (fst r) k) eqn:E.
  - apply key_eqb_eq in E. subst k. rewrite IH.
    destruct (values_of (fst r) rows); reflexivity.
  - rewrite app_nil_r. exact IH.
Qed.

Lemma groupby_mean_sorted (rows : list (key * Qc)) :
  key_sorted (groupby_mean rows).
Proof.
  unfold groupby_mean, key_sorted.
  apply StronglySorted_map.
  exact (groups_sorted rows).
Qed.

Lemma groupby_mean_lookup (rows : list (key * Qc)) (k : key) :
  lookup k (groupby_mean rows) =
  match values_of k rows with
  | [] => None
  | vs => Some (mean vs)
  end.
Proof.
  unfold groupby_mean. rewrite (lookup_map mean), groups_lookup.
  destruct (values_of k rows); reflexivity.
Qed.

(** ** Cells of the pivot *)

Lemma find_row_In (f : string -> list (option Qc)) (c : string)
      (rs : list (string * list (option Qc))) :
  Forall (fun r => snd r = f (fst r)) rs ->
  In c (map fst rs) -> find_row c rs = Some (f c).
Proof.
  induction 1 as [|[c' r] rs Hr HF IH]; simpl; [contradiction|].
  intro Hin. destruct (String.eqb_spec c' c) as [->|Hne].
  - simpl in Hr. rewrite Hr. reflexivity.
  - destruct Hin as [E|Hin]; [contradiction | auto].
Qed.

Lemma find_row_not_In (c : string) (rs : list (string * list (option Qc))) :
  ~ In c (map fst rs) -> find_row c rs = None.
Proof.
  induction rs as [|[c' r] rs IH]; simpl; intro H; [reflexivity|].
  destruct (String.eqb_spec c' c) as [->|Hne]; [exfalso; auto | auto].
Qed.

Lemma isort_In {A : Type} (le : A -> A -> bool) (l : list A) (x : A) :
  In x (isort le l) <-> In x l.
Proof.
  split; apply Permutation_in; [|symmetry]; apply isort_perm.
Qed.

Lemma pivot_table_index (d : list (key * Qc)) (c : string) :
  In c (index (sort_index (pivot_table d))) <->
  In c (map (fun r => fst (fst r)) d).
Proof.
  unfold index, sort_index, pivot_table. cbn [rows columns].
  rewrite in_map_iff. split.
  - intros (r & <- & Hr). apply isort_In, in_map_iff in Hr.
    destruct Hr as (c' & <- & Hc'). cbn [fst].
    apply isort_In, nodup_In in Hc'. exact Hc'.
  - intro H. eexists (c, _). split; [reflexivity|].
    apply isort_In, in_map_iff. exists c. split; [reflexivity|].
    apply isort_In, nodup_In. exact H.
Qed.

Lemma pivot_table_columns (d : list (key * Qc)) (y : Z) :
  In y (columns (sort_index (pivot_table d))) <->
  In y (map (fun r => snd (fst r)) d).
Proof.
  unfold sort_index, pivot_table. cbn [rows columns].
  rewrite isort_In. apply nodup_In.
Qed.

Lemma pivot_table_cell (d : list (key * Qc)) (c : string) (y : Z) :
  cell (sort_index (pivot_table d)) c y = lookup (c, y) d.
Proof.
  assert (Hkey : forall v, lookup (c, y) d = Some v ->
            In c (index (sort_index (pivot_table d))) /\
            In y (columns (sort_index (pivot_table d)))).
  { intros v Hv. apply lookup_In in Hv.
    rewrite pivot_table_index, pivot_table_columns. split.
    - apply in_map_iff. exists ((c, y), v). auto.
    - apply in_map_iff. exists ((c, y), v). auto. }
  unfold cell.
  set (cols := columns (sort_index (pivot_table d))) in *.
  set (f := fun c => map (fun y => lookup (c, y) d) cols).
  assert (Hu : Forall (fun r => snd r = f (fst r))
                      (rows (sort_index (pivot_table d)))).
  { unfold sort_index, pivot_table. cbn [rows columns].
    apply (Permutation_Forall (Permutation_sym (isort_perm _ _))).
    apply Forall_forall. intros r Hr. apply in_map_iff in Hr.
    destruct Hr as (c' & <- & _). reflexivity. }
  destruct (in_dec string_dec c (index (sort_index (pivot_table d))))
    as [Hc|Hc].
  - rewrite (find_row_In f c _ Hu Hc).
    destruct (col_pos cols y) as [j|] eqn:Ej.
    + apply col_pos_Some in Ej. destruct Ej as [Hj <-].
      unfold f.
      rewrite (nth_indep _ None (lookup (c, 0%Z) d))
        by (rewrite length_map; exact Hj).
      apply (map_nth (fun y => lookup (c, y) d)).
    + destruct (lookup (c, y) d) as [v|] eqn:Ev; [|reflexivity].
      destruct (Hkey v eq_refl) as [_ Hy].
      apply col_pos_In in Hy. destruct Hy as [j Hj]. congruence.
  - rewrite (find_row_not_In c _ Hc).
    destruct (lookup (c, y) d) as [v|] eqn:Ev; [|reflexivity].
    destruct (Hkey v eq_refl) as [Hc' _]. contradiction.
Qed.

Lemma pivot_table_index_NoDup (d : list (key * Qc)) :
  NoDup (index (sort_index (pivot_table d))).
Proof.
  unfold index, sort_index, pivot_table. cbn [rows columns].
  apply (Permutation_NoDup
           (Permutation_sym (Permutation_map fst (isort_perm _ _)))).
  rewrite map_map. cbn [fst]. rewrite map_id.
  apply (Permutation_NoDup (Permutation_sym (isort_perm _ _))).
  apply NoDup_nodup.
Qed.

Section Invariant.

Variable argsort : list Qc -> list nat.
Variable py_int : string -> option Z.
Hypothesis argsort_spec : argsort_ok argsort.

(** C9. Whatever the mode, the bar order is a permutation of the index
    of the pivot; the index of the table built from the aggregated rows
    has no repeated code, so every country of the matrix occurs exactly
    once in the order and nothing else does. *)
Theorem categories_permutation (mode : string) (p : Pivot) :
  (exists cats, categories argsort py_int mode p = Some cats /\
                Permutation cats (index p) /\
                (NoDup (index p) -> NoDup cats)) /\
  (forall d, NoDup (index (sort_index (pivot_table d)))).
Proof.
  split; [|apply pivot_table_index_NoDup].
  cut (exists cats, categories argsort py_int mode p = Some cats /\
                    Permutation cats (index p)).
  { intros (cats & Hc & Hp). exists cats. split; [exact Hc|].
    split; [exact Hp|]. intro Hnd.
    apply (Permutation_NoDup (Permutation_sym Hp) Hnd). }
  assert (Hsv : forall s, Permutation (map fst (sort_values_desc argsort s))
                                      (map fst s)).
  { intro s. apply Permutation_map, sort_values_desc_perm, argsort_spec. }
  destruct (String.eqb_spec mode "total") as [->|Ht].
  { eexists. split; [apply categories_total|].
    rewrite Hsv, pivot_sum_labels. reflexivity. }
  destruct (startswith mode "year:") eqn:Hy.
  - apply startswith_year in Hy. destruct Hy as [rest ->].
    rewrite categories_year. cbv zeta.
    assert (Hfall : exists cats,
              match max_years (sorted (columns p)) with
              | Some n => match getitem p n with
                          | Some s => Some (map fst (sort_values_desc argsort s))
                          | None => None
                          end
              | None => Some (index p)
              end = Some cats /\ Permutation cats (index p)).
    { destruct (max_years (sorted (columns p))) as [m|] eqn:Hm.
      - destruct (getitem_In p m (max_years_column _ _ Hm)) as [s Hs].
        rewrite Hs. eexists. split; [reflexivity|].
        rewrite Hsv, (getitem_labels _ _ _ Hs). reflexivity.
      - eexists. split; reflexivity. }
    destruct (py_int rest) as [y|].
    + destruct (in_columns y p) eqn:E; [|exact Hfall].
      apply in_columns_In in E. destruct (getitem_In p y E) as [s Hs].
      rewrite Hs. eexists. split; [reflexivity|].
      rewrite Hsv, (getitem_labels _ _ _ Hs). reflexivity.
    + destruct (max_years (sorted (columns p))) as [m|] eqn:Hm; [|exact Hfall].
      rewrite (proj2 (in_columns_In m p) (max_years_column _ _ Hm)).
      exact Hfall.
  - eexists. split; [apply categories_latest; assumption|].
    rewrite Hsv, latest_vals_labels. reflexivity.
Qed.

End Invariant.

(** ** Sorted lists are unique *)

Lemma sorted_perm_eq {A : Type} (R : A -> A -> Prop) (l1 l2 : list A) :
  (forall a b, R a b -> R b a -> a = b) ->
  StronglySorted R l1 -> StronglySorted R l2 -> Permutation l1 l2 ->
  (forall a, In a l1 -> R a a) ->
  l1 = l2.
Proof.
  intros Hanti H1. revert l2.
  induction H1 as [|a t1 HS1 IH HF1]; intros l2 H2 Hp Hrefl.
  - apply Permutation_nil in Hp. auto.
  - destruct l2 as [|b t2].
    { symmetry in Hp. apply Permutation_nil in Hp. discriminate. }
    inversion H2 as [|? ? HS2 HF2]; subst.
    rewrite Forall_forall in HF1, HF2.
    assert (Hab : R a b).
    { assert (Hb : In b (a :: t1))
        by (apply (Permutation_in _ (Permutation_sym Hp)); simpl; auto).
      destruct Hb as [<-|Hb]; [apply Hrefl; simpl; auto | auto]. }
    assert (Hba : R b a).
    { assert (Ha : In a (b :: t2))
        by (apply (Permutation_in _ Hp); simpl; auto).
      destruct Ha as [->|Ha]; [apply Hrefl; simpl; auto | auto]. }
    assert (a = b) by auto. subst b.
    f_equal. apply IH; [exact HS2 | | intros; apply Hrefl; simpl; auto].
    apply Permutation_cons_inv with a. exact Hp.
Qed.

Lemma string_leb_iff (a b : string) :
  String.leb a b = true <-> a = b \/ String.compare a b = Lt.
Proof.
  unfold String.leb. destruct (String.compare a b) eqn:E.
  - apply String_as_OT.cmp_eq in E. tauto.
  - tauto.
  - split; [discriminate|]. intros [->|H]; [|discriminate].
    rewrite string_compare_refl in E. discriminate.
Qed.

Lemma string_leb_trans (a b c : string) :
  String.leb a b = true -> String.leb b c = true -> String.leb a c = true.
Proof.
  rewrite !string_leb_iff.
  intros [->|H1] [->|H2]; auto.
  right. apply String_as_OT.cmp_lt.
  apply String_as_OT.cmp_lt in H1, H2.
  eapply String_as_OT.lt_trans; eauto.
Qed.

Lemma string_leb_false (a b : string) :
  String.leb a b = false -> String.leb b a = true.
Proof.
  intro H. destruct (String.leb_total a b) as [H'|H']; congruence.
Qed.

Lemma isort_strings_eq (l1 l2 : list string) :
  Permutation l1 l2 -> isort String.leb l1 = isort String.leb l2.
Proof.
  intro Hp.
  apply sorted_perm_eq with (R := fun a b => String.leb a b = true).
  - apply String.leb_antisym.
  - apply isort_sorted;
      [apply string_leb_trans | auto | apply string_leb_false].
  - apply isort_sorted;
      [apply string_leb_trans | auto | apply string_leb_false].
  - rewrite !isort_perm. exact Hp.
  - intros a _. apply string_leb_iff. auto.
Qed.

Lemma isort_Z_eq (l1 l2 : list Z) :
  Permutation l1 l2 -> isort Z.leb l1 = isort Z.leb l2.
Proof.
  intro Hp.
  apply sorted_perm_eq with (R := Z.le).
  - intros a b. lia.
  - apply isort_sorted; intros *; rewrite ?Z.leb_le, ?Z.leb_gt; lia.
  - apply isort_sorted; intros *; rewrite ?Z.leb_le, ?Z.leb_gt; lia.
  - rewrite !isort_perm. exact Hp.
  - intros a _. lia.
Qed.

Lemma nodup_perm {A : Type} (dec : forall x y : A, {x = y} + {x <> y})
      (l1 l2 : list A) :
  Permutation l1 l2 -> Permutation (nodup dec l1) (nodup dec l2).
Proof.
  intro Hp. apply NoDup_Permutation; try apply NoDup_nodup.
  intro x. rewrite !nodup_In.
  split; apply Permutation_in; [|symmetry]; exact Hp.
Qed.

Lemma pivot_table_perm (d1 d2 : list (key * Qc)) :
  Permutation d1 d2 ->
  (forall k, lookup k d1 = lookup k d2) ->
  pivot_table d1 = pivot_table d2.
Proof.
  intros Hp Hl. unfold pivot_table.
  rewrite (isort_strings_eq _ _
             (nodup_perm string_dec _ _
                (Permutation_map (fun r => fst (fst r)) Hp))).
  rewrite (isort_Z_eq _ _
             (nodup_perm Z.eq_dec _ _
                (Permutation_map (fun r => snd (fst r)) Hp))).
  f_equal. apply map_ext. intro c. f_equal.
  apply map_ext. intro y. apply Hl.
Qed.

(** ** Means of single values *)

Lemma mean_singleton (v : Qc) : mean [v] = v.
Proof.
  unfold mean, Qc_sum. cbn [fold_left List.length].
  rewrite Qcplus_0_l. unfold Qcdiv.
  replace (/ Qc_of_nat 1)%Qc with 1%Qc by (apply Qc_is_canon; reflexivity).
  apply Qcmult_1_r.
Qed.

Lemma values_of_absent (k : key) (rows : list (key * Qc)) :
  ~ In k (map fst rows) -> values_of k rows = [].
Proof.
  unfold values_of. induction rows as [|[k' v] rows IH]; simpl; intro H.
  - reflexivity.
  - destruct (key_eqb k' k) eqn:E.
    + apply key_eqb_eq in E. exfalso. auto.
    + apply IH. auto.
Qed.

Lemma values_of_NoDup (k : key) (rows : list (key * Qc)) :
  NoDup (map fst rows) ->
  values_of k rows = match lookup k rows with Some v => [v] | None => [] end.
Proof.
  induction rows as [|[k' v] rows IH]; simpl; intro H; [reflexivity|].
  inversion H; subst. unfold values_of in *. simpl.
  destruct (key_eqb k' k) eqn:E.
  - apply key_eqb_eq in E. subst. simpl. f_equal.
    apply (values_of_absent k rows). assumption.
  - apply IH. assumption.
Qed.

Lemma groupby_mean_unique (rows : list (key * Qc)) (k : key) :
  NoDup (map fst rows) -> lookup k (groupby_mean rows) = lookup k rows.
Proof.
  intro H. rewrite groupby_mean_lookup, (values_of_NoDup k rows H).
  destruct (lookup k rows); [rewrite mean_singleton|]; reflexivity.
Qed.

Lemma groupby_mean_perm (rows : list (key * Qc)) :
  NoDup (map fst rows) -> Permutation (groupby_mean rows) rows.
Proof.
  intro H.
  pose proof (key_sorted_NoDup _ (groupby_mean_sorted rows)) as Hg.
  apply NoDup_Permutation.
  - apply (NoDup_map_inv fst). exact Hg.
  - apply (NoDup_map_inv fst). exact H.
  - intros [k v]. split; intro Hin.
    + apply lookup_In. rewrite <- (groupby_mean_unique rows k H).
      apply In_lookup; assumption.
    + apply lookup_In. rewrite (groupby_mean_unique rows k H).
      apply In_lookup; assumption.
Qed.

Lemma group_insert_above (k : key) (v : Qc) (g : list (key * list Qc)) :
  Forall (fun e => key_compare (fst e) k = Lt) g ->
  group_insert k v g = g ++ [(k, [v])].
Proof.
  induction 1 as [|[k' vs] g Hk HF IH]; simpl; [reflexivity|].
  simpl in Hk. apply key_compare_gt in Hk. rewrite Hk, IH. reflexivity.
Qed.

Lemma groups_of_sorted (d : list (key * Qc)) :
  key_sorted d -> groups d = map (fun kv => (fst kv, [snd kv])) d.
Proof.
  unfold key_sorted.
  induction d as [|x d IH] using rev_ind; intro H; [reflexivity|].
  apply StronglySorted_app_inv in H. destruct H as (Hd & _ & Hx).
  rewrite groups_snoc, (IH Hd), map_app. simpl.
  apply group_insert_above.
  apply Forall_forall. intros e He. apply in_map_iff in He.
  destruct He as (kv & <- & Hkv). simpl. apply Hx; simpl; auto.
Qed.

Lemma groupby_mean_of_sorted (d : list (key * Qc)) :
  key_sorted d -> groupby_mean d = d.
Proof.
  intro H. unfold groupby_mean. rewrite (groups_of_sorted d H), map_map.
  rewrite <- (map_id d) at 2. apply map_ext.
  intros [k v]. simpl. rewrite mean_singleton. reflexivity.
Qed.

(** ** Rounding to two decimals *)



(* ================================================================= *)
(** * The normalizer (lines 34-37) *)

Lemma filter_map_comm {A B : Type} (f : B -> bool) (g : A -> B) (l : list A) :
  filter f (map g l) = map g (filter (fun x => f (g x)) l).
Proof.
  induction l as [|a l IH]; simpl; [reflexivity|].
  destruct (f (g a)); simpl; rewrite IH; reflexivity.
Qed.

Lemma filter_filter_implied {A : Type} (f g : A -> bool) (l : list A) :
  (forall x, f x = true -> g x = true) ->
  filter f (filter g l) = filter f l.
Proof.
  intro H. induction l as [|a l IH]; simpl; [reflexivity|].
  destruct (g a) eqn:Eg; simpl.
  - rewrite IH. reflexivity.
  - destruct (f a) eqn:Ef; [|exact IH].
    rewrite (H a Ef) in Eg. discriminate.
Qed.

Lemma gt0_notna (p : option Qc) : gt0 p = true -> notna p = true.
Proof. destruct p; simpl; [reflexivity | discriminate]. Qed.

Lemma merged_eq (pop : dict Qc) (df : list Observation) :
  merged pop df =
  map (fun r => mkMerged r (dict_get pop (COUNTRY r))
                         (fdiv (OBS_VALUE r) (dict_get pop (COUNTRY r))))
      (filter (fun r => gt0 (dict_get pop (COUNTRY r))) df).
Proof.
  unfold merged, add_ratio, positive_population, dropna_population, merge_left.
  rewrite filter_filter_implied by (intros x; apply gt0_notna).
  rewrite filter_map_comm, map_map. reflexivity.
Qed.

(** C2. The normalizer keeps, in order, exactly the observations whose
    country has a population entry that is positive; each kept row
    carries that population and the ratio raw value / population, the
    plain quotient; no other row appears. *)
Theorem normalizer_keeps_positive_population
        (pop : dict Qc) (df : list Observation) :
  map m_obs (merged pop df)
    = filter (fun r => gt0 (dict_get pop (COUNTRY r))) df /\
  (forall r, In r (map m_obs (merged pop df)) <->
     In r df /\ exists q, dict_get pop (COUNTRY r) = Some q /\ (0 < q)%Qc) /\
  Forall (fun m =>
            exists q, dict_get pop (COUNTRY (m_obs m)) = Some q /\
                      (0 < q)%Qc /\
                      Population_millions m = Some q /\
                      Patents_per_million m =
                        match OBS_VALUE (m_obs m) with
                        | Some v => Some (v / q)%Qc
                        | None => None
                        end)
         (merged pop df).
Proof.
  assert (E : map m_obs (merged pop df)
              = filter (fun r => gt0 (dict_get pop (COUNTRY r))) df).
  { rewrite merged_eq, map_map. cbn [m_obs]. apply map_id. }
  split; [exact E|split].
  - intro r. rewrite E, filter_In, gt0_Some. reflexivity.
  - rewrite merged_eq. apply Forall_forall. intros m Hm.
    apply in_map_iff in Hm. destruct Hm as (r & <- & Hr).
    apply filter_In in Hr. destruct Hr as [_ Hr].
    apply gt0_Some in Hr. destruct Hr as (q & Hq & Hpos).
    exists q. cbn [m_obs Population_millions Patents_per_million].
    rewrite Hq. repeat split; assumption.
Qed.

(** With the table of the script, whose populations are all positive, a
    row is kept exactly when its code is one of the table. *)
Lemma script_table_keeps_known_codes (df : list Observation) (r : Observation) :
  In r (map m_obs (merged population_millions df)) <->
  In r df /\ dict_get population_millions (COUNTRY r) <> None.
Proof.
  rewrite merged_eq, map_map. cbn [m_obs]. rewrite map_id, filter_In.
  assert (Hpos : forall c q, dict_get population_millions c = Some q ->
                             Qcltb 0%Qc q = true).
  { intros c q. unfold population_millions. cbn [dict_get].
    repeat match goal with
           | |- context [String.eqb ?a c] => destruct (String.eqb a c)
           end; intro H; try discriminate; injection H as <-; reflexivity. }
  split; intros [Hin H]; (split; [exact Hin|]).
  - destruct (dict_get population_millions (COUNTRY r)); [discriminate|].
    discriminate H.
  - destruct (dict_get population_millions (COUNTRY r)) as [q|] eqn:E;
      [|contradiction].
    exact (Hpos _ _ E).
Qed.

(* ================================================================= *)
(** * The aggregator (lines 50-61) *)

Section AggregatorFacts.

Variable to_numeric : string -> option Qc.

Lemma numeric_rows_In (df : list Merged) (k : key) (v : Qc) :
  In (k, v) (numeric_rows to_numeric df) <->
  exists r t, In r df /\
              to_numeric (TIME_PERIOD (m_obs r)) = Some t /\
              Patents_per_million r = Some v /\
              k = (COUNTRY (m_obs r), astype_int t).
Proof.
  unfold numeric_rows. rewrite in_flat_map. split.
  - intros (r & Hr & Hin).
    destruct (to_numeric (TIME_PERIOD (m_obs r))) as [t|] eqn:Et;
      [|destruct Hin].
    destruct (Patents_per_million r) as [w|] eqn:Ew; [|destruct Hin].
    destruct Hin as [E|[]]. injection E as <- <-.
    exists r, t. auto.
  - intros (r & t & Hr & Et & Ev & ->).
    exists r. split; [exact Hr|]. rewrite Et, Ev. simpl. auto.
Qed.

End AggregatorFacts.

(** C7. Aggregating an aggregated table changes nothing; and on rows
    whose keys are already distinct the aggregation keeps every row with
    its own value, so that the matrix is the one of the rows themselves. *)
Theorem aggregation_idempotent (rows : list (key * Qc)) :
  groupby_mean (groupby_mean rows) = groupby_mean rows /\
  (NoDup (map fst rows) ->
   Permutation (groupby_mean rows) rows /\
   (forall k, lookup k (groupby_mean rows) = lookup k rows) /\
   sort_index (pivot_table (groupby_mean rows))
     = sort_index (pivot_table rows)).
Proof.
  split.
  - apply groupby_mean_of_sorted, groupby_mean_sorted.
  - intro H. split; [|split].
    + apply groupby_mean_perm, H.
    + intro k. apply groupby_mean_unique, H.
    + f_equal. apply pivot_table_perm.
      * apply groupby_mean_perm, H.
      * intro k. apply groupby_mean_unique, H.
Qed.

(* ================================================================= *)
(** * The series of the chart (lines 93-97) *)

Lemma nth_repeat_None {A : Type} (n j : nat) :
  nth j (repeat (@None A) n) None = None.
Proof.
  revert j. induction n as [|n IH]; intros [|j]; simpl; auto.
Qed.

Lemma to_int_proper (z : Z) :
  Z.to_int z <> Decimal.Pos Decimal.Nil /\
  Z.to_int z <> Decimal.Neg Decimal.Nil.
Proof.
  destruct z as [|p|p]; simpl; split; try discriminate;
    intro H; injection H as H;
    exact (DecimalPos.Unsigned.to_uint_nonnil p H).
Qed.

Lemma str_inj (a b : Z) : str a = str b -> a = b.
Proof.
  unfold str. intro H.
  apply (f_equal NilZero.int_of_string) in H.
  destruct (to_int_proper a) as [Ha1 Ha2].
  destruct (to_int_proper b) as [Hb1 Hb2].
  rewrite !NilZero.isi in H by assumption.
  injection H as H.
  rewrite <- (DecimalZ.of_to a), <- (DecimalZ.of_to b), H. reflexivity.
Qed.

Lemma NoDup_map_inj {A B : Type} (f : A -> B) (l : list A) :
  (forall a b, f a = f b -> a = b) -> NoDup l -> NoDup (map f l).
Proof.
  intros Hf. induction 1 as [|a l Ha Hl IH]; simpl; constructor; [|exact IH].
  intro H. apply in_map_iff in H. destruct H as (b & E & Hb).
  apply Hf in E. subst b. contradiction.
Qed.

Lemma dict_get_str {V : Type} (f : Z -> V) (ys : list Z) (y : Z) :
  dict_get (map (fun y => (str y, f y)) ys) (str y)
  = if in_dec Z.eq_dec y ys then Some (f y) else None.
Proof.
  induction ys as [|a ys IH]; simpl; [reflexivity|].
  destruct (String.eqb_spec (str a) (str y)) as [E|Hne].
  - apply str_inj in E. subst a.
    destruct (Z.eq_dec y y); [reflexivity | contradiction].
  - destruct (Z.eq_dec a y) as [->|Hay]; [contradiction|].
    rewrite IH. destruct (in_dec Z.eq_dec y ys); reflexivity.
Qed.

Lemma series_for_year_eq (p : Pivot) (cats : list string) (y : Z) :
  series_for_year p cats y =
  map (fun c => match cell p c y with
                | Some q => Some (round2 q)
                | None => None
                end) cats.
Proof.
  unfold series_for_year, cell, reindex. cbn [rows columns].
  destruct (col_pos (columns p) y) as [j|]; rewrite !map_map; cbn [fst snd];
    apply map_ext; intro c.
  - destruct (find_row c (rows p)); [reflexivity|].
    rewrite nth_repeat_None. reflexivity.
  - destruct (find_row c (rows p)); reflexivity.
Qed.


(* ================================================================= *)
(** * The worked example *)

(** Equality of tables of rationals: the structure by congruence, the
    numbers by their canonical fractions. *)
Ltac table_eq :=
  repeat lazymatch goal with
         | |- @eq Qc _ _ => apply Qc_is_canon; reflexivity
         | |- Some _ = Some _ => apply f_equal
         | |- (_, _) = (_, _) => apply f_equal2
         | |- _ :: _ = _ :: _ => apply f_equal2
         | |- mkPivot _ _ = mkPivot _ _ => apply f_equal2
         | |- _ => reflexivity
         end.

Lemma example_merged_eq :
  map (fun m => (COUNTRY (m_obs m), TIME_PERIOD (m_obs m),
                 Patents_per_million m)) example_merged
  = [ ("A", "2020", Some (Qc_of_Z 1)); ("A", "2021", Some (Qc_of_Z 2));
      ("B", "2020", Some (Qc_of_Z 1)) ]%string.
Proof. vm_compute. table_eq. Qed.

Lemma example_pivot_eq :
  example_pivot
  = mkPivot [2020%Z; 2021%Z]
            [ ("A"%string, [Some (Qc_of_Z 1); Some (Qc_of_Z 2)]);
              ("B"%string, [Some (Qc_of_Z 1); None]) ].
Proof. vm_compute. table_eq. Qed.

Lemma example_sums :
  sum_at example_pivot 0 = Qc_of_Z 3 /\ sum_at example_pivot 1 = Qc_of_Z 1.
Proof. split; apply Qc_is_canon; reflexivity. Qed.

(** C8. On the observations (A,2020,10), (A,2021,20), (B,2020,5) with
    populations A:10 and B:5 the ratios are 1, 2 and 1, the matrix is
    A:{2020:1, 2021:2}, B:{2020:1}, the order under "total" is A, B
    because the sums are 3 and 1, and the list of 2021 is 2 and the
    missing marker. *)
Theorem worked_example (argsort : list Qc -> list nat)
        (py_int : string -> option Z) :
  argsort_ok argsort ->
  map (fun m => (COUNTRY (m_obs m), TIME_PERIOD (m_obs m),
                 Patents_per_million m)) example_merged
    = [ ("A", "2020", Some (Qc_of_Z 1)); ("A", "2021", Some (Qc_of_Z 2));
        ("B", "2020", Some (Qc_of_Z 1)) ]%string /\
  example_pivot
    = mkPivot [2020%Z; 2021%Z]
              [ ("A"%string, [Some (Qc_of_Z 1); Some (Qc_of_Z 2)]);
                ("B"%string, [Some (Qc_of_Z 1); None]) ] /\
  (sum_at example_pivot 0 = Qc_of_Z 3 /\ sum_at example_pivot 1 = Qc_of_Z 1) /\
  categories argsort py_int "total" example_pivot
    = Some ["A"; "B"]%string /\
  dict_get (data_by_year example_pivot ["A"; "B"]%string) "2021"
    = Some [Some (Qc_of_Z 2); None].
Proof.
  intro Hok.
  split; [exact example_merged_eq|].
  split; [exact example_pivot_eq|].
  split; [exact example_sums|].
  split.
  - rewrite categories_total, (sort_values_desc_labels argsort).
    set (items := map snd (pivot_sum example_pivot)).
    pose proof (nargsort_desc_perm argsort Hok items) as Hp.
    pose proof (nargsort_desc_sorted argsort Hok items) as Hs.
    change (seq 0 (List.length items)) with [0; 1] in Hp.
    apply Permutation_sym, Permutation_length_2_inv in Hp.
    destruct Hp as [-> | Hp]; [reflexivity|].
    exfalso. rewrite Hp in Hs.
    inversion Hs as [|? ? _ HF]; subst.
    inversion HF as [|? ? H _]; subst.
    vm_compute in H. apply H. reflexivity.
  - vm_compute. table_eq.
Qed.

(** C5. The aggregator does not drop every row whose year cannot be
    coerced to an integer.  Of three observations of countries of the
    script's table, let the second be dated "inf", a field that
    [to_numeric] reads as a number.  The row passes the normalizer with
    the ratio 2 and passes [dropna]; the cast of the year column to int
    then stops the run, and no matrix is built.  With that row dropped
    the matrix would be AUS: 1 and DEU: 1 for 2020, which is what the
    other two observations alone give. *)
Theorem aggregator_stops_on_infinite_year :
  number_of_field "inf" = Some year_inf /\
  map (fun m => (COUNTRY (m_obs m), TIME_PERIOD (m_obs m),
                 Patents_per_million m))
      (merged population_millions inf_observations)
  = [ ("AUS", "2020", Some (Qc_of_Z 1)); ("AUS", "inf", Some (Qc_of_Z 2));
      ("DEU", "2020", Some (Qc_of_Z 1)) ]%string /\
  List.length (dropna_rows number_of_field
                 (merged population_millions inf_observations)) = 3 /\
  int_rows number_of_field (merged population_millions inf_observations)
  = None /\
  pivot_int64 number_of_field (merged population_millions inf_observations)
  = None /\
  pivot_int64 number_of_field
    (merged population_millions finite_observations)
  = Some (mkPivot [2020%Z] [ ("AUS"%string, [Some (Qc_of_Z 1)]);
                             ("DEU"%string, [Some (Qc_of_Z 1)]) ]).
Proof.
  split; [reflexivity|].
  split; [vm_compute; table_eq|].
  split; [reflexivity|].
  split; [reflexivity|].
  split; [reflexivity|].
  vm_compute. table_eq.
Qed.

(* ================================================================= *)
(** * The claims at concrete inputs *)

(** The sort of the "total" policy does not keep equal sums in index
    order.  On a table of four countries A, B, C, D with the sums 1, 1, 2
    and 3, the kernel that numpy runs on x86 processors, which meets the
    ordering contract, yields D, C, B, A: the tie of A and B comes out
    reversed.  (On the table of two countries A, B with equal sums the
    same kernel yields A, B.) *)
Lemma total_order_reverses_a_tie :
  argsort_ok argsort_simd /\
  index tie4_pivot = ["A"; "B"; "C"; "D"]%string /\
  sum_at tie4_pivot 0 = sum_at tie4_pivot 1 /\
  categories argsort_simd int_of_digits "total" tie4_pivot
    = Some ["D"; "C"; "B"; "A"]%string /\
  categories argsort_simd int_of_digits "total" tie_pivot
    = Some ["A"; "B"]%string.
Proof.
  split; [exact argsort_simd_ok|].
  repeat split.
Qed.

Lemma total_order_descending_witness :
  categories argsort_insertion int_of_digits "total" tie_pivot
    = Some ["A"; "B"]%string /\
  StronglySorted (fun i j => sum_at tie_pivot i = sum_at tie_pivot j -> i < j)
    (nargsort_desc argsort_insertion (map snd (pivot_sum tie_pivot))).
Proof.
  pose proof (total_order_descending argsort_insertion int_of_digits
                argsort_insertion_ok tie_pivot) as H.
  cbv zeta in H. destruct H as (H1 & _ & _ & _ & H5).
  split; [exact H1 | exact (H5 argsort_insertion_stable)].
Defined.


Lemma latest_order_descending_witness :
  categories argsort_insertion int_of_digits "latest" example_pivot
    = Some (map fst (sort_values_desc argsort_insertion
                       (latest_vals example_pivot))).
Proof.
  exact (proj1 (latest_order_descending argsort_insertion int_of_digits
                  argsort_insertion_ok example_pivot)).
Defined.

Lemma categories_permutation_witness :
  exists cats,
    categories argsort_insertion int_of_digits "year:2020" example_pivot
      = Some cats /\
    Permutation cats (index example_pivot) /\
    NoDup cats.
Proof.
  destruct (categories_permutation argsort_insertion int_of_digits
              argsort_insertion_ok "year:2020" example_pivot)
    as ((cats & Hc & Hp & Hn) & Hd).
  exists cats. split; [exact Hc|]. split; [exact Hp|].
  apply Hn. exact (Hd _).
Defined.

Lemma unknown_mode_is_latest_witness :
  categories argsort_insertion int_of_digits "lastest" example_pivot
    = categories argsort_insertion int_of_digits "latest" example_pivot.
Proof.
  refine (proj1 (unknown_mode_is_latest argsort_insertion int_of_digits
                   "lastest" example_pivot _ _)).
  - discriminate.
  - reflexivity.
Defined.

Lemma normalizer_keeps_positive_population_witness :
  map m_obs (merged example_population (obs "C" "2020" 7 :: example_observations))
    = example_observations.
Proof.
  rewrite (proj1 (normalizer_keeps_positive_population example_population
                    (obs "C" "2020" 7 :: example_observations))).
  reflexivity.
Defined.

Lemma aggregation_idempotent_witness :
  Permutation (groupby_mean example_rows) example_rows.
Proof.
  refine (proj1 (proj2 (aggregation_idempotent example_rows) _)).
  repeat constructor; simpl; intuition discriminate.
Defined.


Lemma worked_example_witness :
  categories argsort_insertion int_of_digits "total" example_pivot
    = Some ["A"; "B"]%string.
Proof.
  destruct (worked_example argsort_insertion int_of_digits
              argsort_insertion_ok) as (_ & _ & _ & H & _).
  exact H.
Defined.

(* ================================================================= *)
(** * Beyond the claims: the shape of the pivot (lines 55-64) *)

Lemma insert_by_map {A B : Type} (le : A -> A -> bool) (g : A -> B)
      (h : B -> A) (x : A) (l : list A) :
  (forall c, h (g c) = c) ->
  insert_by (fun a b => le (h a) (h b)) (g x) (map g l)
  = map g (insert_by le x l).
Proof.
  intro Hh. induction l as [|y l IH]; simpl; [reflexivity|].
  rewrite !Hh. destruct (le y x); simpl; [rewrite IH|]; reflexivity.
Qed.

Lemma isort_map {A B : Type} (le : A -> A -> bool) (g : A -> B)
      (h : B -> A) (l : list A) :
  (forall c, h (g c) = c) ->
  isort (fun a b => le (h a) (h b)) (map g l) = map g (isort le l).
Proof.
  intro Hh. induction l as [|x l IH] using rev_ind; [reflexivity|].
  rewrite map_app. simpl. rewrite !isort_snoc, IH.
  apply insert_by_map. exact Hh.
Qed.

Lemma isort_strings_idem (l : list string) :
  isort String.leb (isort String.leb l) = isort String.leb l.
Proof. apply isort_strings_eq, isort_perm. Qed.

Lemma isort_Z_idem (l : list Z) :
  isort Z.leb (isort Z.leb l) = isort Z.leb l.
Proof. apply isort_Z_eq, isort_perm. Qed.

Lemma StronglySorted_strict {A : Type} (R R' : A -> A -> Prop) (l : list A) :
  (forall a b, R a b -> a <> b -> R' a b) ->
  NoDup l -> StronglySorted R l -> StronglySorted R' l.
Proof.
  intros H Hnd HS. induction HS as [|a l HS IH HF]; [constructor|].
  inversion Hnd; subst. constructor; [auto|].
  rewrite Forall_forall in *. intros y Hy. apply H; [auto|].
  intros ->. contradiction.
Qed.

Lemma isort_strings_ascending (l : list string) :
  NoDup l ->
  StronglySorted (fun a b => String.compare a b = Lt) (isort String.leb l).
Proof.
  intro Hnd.
  apply StronglySorted_strict with (R := fun a b => String.leb a b = true).
  - intros a b Hle Hne. apply string_leb_iff in Hle.
    destruct Hle; [contradiction | assumption].
  - apply (Permutation_NoDup (Permutation_sym (isort_perm _ _)) Hnd).
  - apply isort_sorted;
      [apply string_leb_trans | auto | apply string_leb_false].
Qed.

Lemma isort_Z_ascending (l : list Z) :
  NoDup l -> StronglySorted Z.lt (isort Z.leb l).
Proof.
  intro Hnd. apply StronglySorted_strict with (R := Z.le).
  - intros a b. lia.
  - apply (Permutation_NoDup (Permutation_sym (isort_perm _ _)) Hnd).
  - apply isort_sorted; intros *; rewrite ?Z.leb_le, ?Z.leb_gt; lia.
Qed.

Lemma sort_index_pivot_table (d : list (key * Qc)) :
  sort_index (pivot_table d) = pivot_table d.
Proof.
  unfold sort_index, pivot_table. cbn [rows columns]. f_equal.
  set (g := fun c : string => (c, map (fun y => lookup (c, y) d) _)).
  rewrite (isort_map String.leb g fst) by reflexivity.
  rewrite isort_strings_idem. reflexivity.
Qed.

Lemma pivot_index_eq (d : list (key * Qc)) :
  index (sort_index (pivot_table d))
  = isort String.leb (nodup string_dec (map (fun r => fst (fst r)) d)).
Proof.
  rewrite sort_index_pivot_table.
  unfold index, pivot_table. cbn [rows].
  rewrite map_map. cbn [fst]. apply map_id.
Qed.

Lemma pivot_columns_eq (d : list (key * Qc)) :
  columns (sort_index (pivot_table d))
  = isort Z.leb (nodup Z.eq_dec (map (fun r => snd (fst r)) d)).
Proof. reflexivity. Qed.

Lemma pivot_rows_eq (d : list (key * Qc)) :
  rows (sort_index (pivot_table d))
  = map (fun c => (c, map (fun y => lookup (c, y) d)
                          (columns (sort_index (pivot_table d)))))
        (index (sort_index (pivot_table d))).
Proof.
  rewrite pivot_index_eq, sort_index_pivot_table. reflexivity.
Qed.

Lemma pivot_axes_shape (d : list (key * Qc)) :
  Forall (fun r => List.length (snd r)
                   = List.length (columns (sort_index (pivot_table d))))
         (rows (sort_index (pivot_table d))) /\
  sorted (columns (sort_index (pivot_table d)))
  = columns (sort_index (pivot_table d)).
Proof.
  split.
  - rewrite pivot_rows_eq. apply Forall_forall. intros r Hr.
    apply in_map_iff in Hr. destruct Hr as (c & <- & _).
    cbn [snd]. apply length_map.
  - rewrite pivot_columns_eq. unfold sorted. apply isort_Z_idem.
Qed.

(** X2. The pivot is a rectangle with ordered axes: every row has one
    cell per year column, the codes of the index ascend strictly, the
    years of the columns ascend strictly, and [years], the sorted list of
    the columns, is the column list itself. *)
Theorem pivot_axes_ascending (d : list (key * Qc)) :
  let pivot := sort_index (pivot_table d) in
  Forall (fun r => List.length (snd r) = List.length (columns pivot))
         (rows pivot) /\
  StronglySorted (fun a b => String.compare a b = Lt) (index pivot) /\
  StronglySorted Z.lt (columns pivot) /\
  sorted (columns pivot) = columns pivot.
Proof.
  intro pivot. unfold pivot. split; [|split; [|split]].
  - rewrite pivot_rows_eq. apply Forall_forall. intros r Hr.
    apply in_map_iff in Hr. destruct Hr as (c & <- & _).
    cbn [snd]. apply length_map.
  - rewrite pivot_index_eq. apply isort_strings_ascending, NoDup_nodup.
  - rewrite pivot_columns_eq. apply isort_Z_ascending, NoDup_nodup.
  - rewrite pivot_columns_eq. unfold sorted. apply isort_Z_idem.
Qed.

(** ** Which labels the pivot has *)

Lemma lookup_None {V : Type} (k : key) (l : list (key * V)) :
  lookup k l = None <-> ~ In k (map fst l).
Proof.
  induction l as [|[k' v] l IH]; simpl; [tauto|].
  destruct (key_eqb k' k) eqn:E.
  - apply key_eqb_eq in E. split; [discriminate | intro H; exfalso; auto].
  - apply key_eqb_neq in E. rewrite IH. tauto.
Qed.

Lemma values_of_nil (k : key) (rows : list (key * Qc)) :
  values_of k rows = [] <-> ~ In k (map fst rows).
Proof.
  split; [|apply values_of_absent].
  unfold values_of. induction rows as [|[k' v] rows IH]; simpl; [tauto|].
  destruct (key_eqb k' k) eqn:E; simpl; [discriminate|].
  apply key_eqb_neq in E. intros H [H'|H']; [contradiction | exact (IH H H')].
Qed.

Lemma values_of_In (k : key) (rows : list (key * Qc)) (v : Qc) :
  In v (values_of k rows) -> In (k, v) rows.
Proof.
  unfold values_of. intro H. apply in_map_iff in H.
  destruct H as ([k' v'] & <- & H). apply filter_In in H.
  destruct H as [H E]. apply key_eqb_eq in E. simpl in E. subst. exact H.
Qed.

Lemma In_key_lookup {V : Type} (k : key) (l : list (key * V)) :
  In k (map fst l) -> exists v, lookup k l = Some v.
Proof.
  intro H. destruct (lookup k l) as [v|] eqn:E; [eauto|].
  apply lookup_None in E. contradiction.
Qed.

Lemma groupby_mean_keys (rows : list (key * Qc)) (k : key) :
  In k (map fst (groupby_mean rows)) <-> In k (map fst rows).
Proof.
  split; intro H.
  - apply In_key_lookup in H. destruct H as [m H].
    rewrite groupby_mean_lookup in H.
    destruct (values_of k rows) as [|v vs] eqn:E; [discriminate|].
    apply in_map_iff. exists (k, v). split; [reflexivity|].
    apply values_of_In. rewrite E. simpl. auto.
  - destruct (lookup k (groupby_mean rows)) as [m|] eqn:E.
    + apply lookup_In in E. apply in_map_iff. exists (k, m). auto.
    + rewrite groupby_mean_lookup in E.
      destruct (values_of k rows) eqn:Ev; [|discriminate].
      apply values_of_nil in Ev. contradiction.
Qed.

Lemma pivot_index_data (d : list (key * Qc)) (c : string) :
  In c (index (sort_index (pivot_table d))) <->
  exists y, In (c, y) (map fst d).
Proof.
  rewrite pivot_table_index, in_map_iff. split.
  - intros ([[c' y] v] & <- & H). exists y.
    apply in_map_iff. exists ((c', y), v). auto.
  - intros (y & H). apply in_map_iff in H.
    destruct H as ([k v] & E & H). simpl in E. subst k.
    exists ((c, y), v). auto.
Qed.

Lemma pivot_columns_data (d : list (key * Qc)) (y : Z) :
  In y (columns (sort_index (pivot_table d))) <->
  exists c, In (c, y) (map fst d).
Proof.
  rewrite pivot_table_columns, in_map_iff. split.
  - intros ([[c y'] v] & <- & H). exists c.
    apply in_map_iff. exists ((c, y'), v). auto.
  - intros (c & H). apply in_map_iff in H.
    destruct H as ([k v] & E & H). simpl in E. subst k.
    exists ((c, y), v). auto.
Qed.

(** X3. The index of the pivot holds exactly the countries, and its
    columns exactly the years, that occur in a row handed to the
    aggregation: grouping and pivoting neither lose nor invent a label. *)
Theorem pivot_labels_are_those_of_the_rows (rows : list (key * Qc)) :
  let pivot := sort_index (pivot_table (groupby_mean rows)) in
  (forall c, In c (index pivot) <-> exists y v, In ((c, y), v) rows) /\
  (forall y, In y (columns pivot) <-> exists c v, In ((c, y), v) rows).
Proof.
  assert (Hk : forall k, In k (map fst rows) <-> exists v, In (k, v) rows).
  { intro k. rewrite in_map_iff. split.
    - intros ([k' v] & E & H). simpl in E. subst. eauto.
    - intros (v & H). exists (k, v). auto. }
  intro pivot. unfold pivot. split.
  - intro c. rewrite pivot_index_data. split.
    + intros (y & H). apply groupby_mean_keys, Hk in H. eauto.
    + intros (y & v & H). exists y. apply groupby_mean_keys, Hk. eauto.
  - intro y. rewrite pivot_columns_data. split.
    + intros (c & H). apply groupby_mean_keys, Hk in H. eauto.
    + intros (c & v & H). exists c. apply groupby_mean_keys, Hk. eauto.
Qed.

(** ** No row of the pivot is empty *)

Lemma has_value_nth (r : list (option Qc)) :
  has_value r = true ->
  exists j v, j < List.length r /\ nth j r None = Some v.
Proof.
  unfold has_value. intro H. apply existsb_exists in H.
  destruct H as (x & Hin & Hx). destruct x as [v|]; [|discriminate].
  apply (In_nth _ _ None) in Hin. destruct Hin as (j & Hj & E).
  exists j, v. auto.
Qed.

Lemma pivot_rows_have_value (d : list (key * Qc)) :
  Forall (fun r => has_value (snd r) = true)
         (rows (sort_index (pivot_table d))).
Proof.
  rewrite pivot_rows_eq. apply Forall_forall. intros r Hr.
  apply in_map_iff in Hr. destruct Hr as (c & <- & Hc). cbn [snd].
  apply pivot_index_data in Hc. destruct Hc as (y & Hy).
  unfold has_value. apply existsb_exists.
  destruct (In_key_lookup _ _ Hy) as [v Hv].
  exists (Some v). split; [|reflexivity].
  apply in_map_iff. exists y. split; [exact Hv|].
  apply pivot_columns_data. eauto.
Qed.

Lemma latest_val_has_value (cols : list Z) (r : list (option Qc)) :
  List.length r = List.length cols -> has_value r = true ->
  latest_val
    (take None r
       (isort (fun i j => Z.leb (nth i cols 0%Z) (nth j cols 0%Z))
              (seq 0 (List.length cols)))) <> None.
Proof.
  intros Hlen Hv E. apply latest_val_None in E.
  apply has_value_nth in Hv. destruct Hv as (j & v & Hj & Ej).
  rewrite Forall_forall in E.
  assert (H : Some v = None); [|discriminate].
  apply E. rewrite <- Ej. unfold take. apply in_map_iff.
  exists j. split; [reflexivity|].
  apply isort_In, in_seq. lia.
Qed.

(** X4. Every country of the pivot has a value in at least one year, so
    under the "latest" policy every key is a number: no country is
    ranked by the missing-last rule. *)
Theorem latest_key_never_missing (d : list (key * Qc)) :
  let pivot := sort_index (pivot_table d) in
  Forall (fun r => has_value (snd r) = true) (rows pivot) /\
  Forall (fun kv => snd kv <> None) (latest_vals pivot).
Proof.
  intro pivot. split; [apply pivot_rows_have_value|].
  unfold latest_vals, sort_columns. cbn [rows]. rewrite map_map. cbn [fst snd].
  apply Forall_forall. intros kv Hkv.
  apply in_map_iff in Hkv. destruct Hkv as (r & <- & Hr). cbn [snd].
  apply latest_val_has_value.
  - destruct (pivot_axes_shape d) as [H _].
    rewrite Forall_forall in H. apply H, Hr.
  - pose proof (pivot_rows_have_value d) as H.
    rewrite Forall_forall in H. apply H, Hr.
Qed.

(* ================================================================= *)
(** * Beyond the claims: from the rows read to the bars *)

Lemma dict_get_In {V : Type} (d : dict V) (k : string) (v : V) :
  dict_get d k = Some v -> In k (map fst d).
Proof.
  induction d as [|[k' v'] d IH]; simpl; [discriminate|].
  destruct (String.eqb_spec k' k) as [->|Hne]; auto.
Qed.

Lemma merged_population (pop : dict Qc) (df : list Observation) (m : Merged) :
  In m (merged pop df) ->
  In (m_obs m) df /\
  exists q, dict_get pop (COUNTRY (m_obs m)) = Some q /\ (0 < q)%Qc.
Proof.
  rewrite merged_eq. intro H. apply in_map_iff in H.
  destruct H as (r & <- & Hr). apply filter_In in Hr.
  destruct Hr as [Hin Hr]. apply gt0_Some in Hr.
  destruct Hr as (q & Hq & Hpos). cbn [m_obs]. eauto.
Qed.

Lemma numeric_rows_country (to_numeric : string -> option Qc)
      (df : list Merged) (k : key) :
  In k (map fst (numeric_rows to_numeric df)) ->
  exists r, In r df /\ COUNTRY (m_obs r) = fst k.
Proof.
  intro H. apply in_map_iff in H. destruct H as ([k' v] & E & H).
  simpl in E. subst k'. apply numeric_rows_In in H.
  destruct H as (r & t & Hr & _ & _ & ->). exists r. auto.
Qed.

(** X5. Only countries of the population table reach the chart: each
    code in the index of the pivot has an entry with a positive
    population, and the chart has at most as many bars as the table has
    entries. *)
Theorem pivot_countries_have_population
        (to_numeric : string -> option Qc) (pop : dict Qc)
        (df : list Observation) :
  (forall c, In c (index (pivot_of to_numeric pop df)) ->
     exists q, dict_get pop c = Some q /\ (0 < q)%Qc) /\
  List.length (index (pivot_of to_numeric pop df)) <= List.length pop.
Proof.
  assert (H : forall c, In c (index (pivot_of to_numeric pop df)) ->
                exists q, dict_get pop c = Some q /\ (0 < q)%Qc).
  { intros c Hc. unfold pivot_of in Hc.
    apply pivot_index_data in Hc. destruct Hc as (y & Hy).
    unfold df_ratio in Hy. apply (proj1 (groupby_mean_keys _ _)) in Hy.
    apply numeric_rows_country in Hy. destruct Hy as (m & Hm & E).
    cbn [fst] in E. subst c.
    apply merged_population in Hm. apply Hm. }
  split; [exact H|].
  rewrite <- (length_map fst pop).
  apply NoDup_incl_length.
  - apply pivot_table_index_NoDup.
  - intros c Hc. destruct (H c Hc) as (q & Hq & _).
    apply (dict_get_In _ _ _ Hq).
Qed.

Section EmptyChart.

Variable argsort : list Qc -> list nat.
Variable py_int : string -> option Z.
Hypothesis argsort_spec : argsort_ok argsort.

Lemma categories_of_index (mode : string) (p : Pivot) :
  exists cats, categories argsort py_int mode p = Some cats /\
               Permutation cats (index p).
Proof.
  assert (Hsv : forall s, Permutation (map fst (sort_values_desc argsort s))
                                      (map fst s)).
  { intro s. apply Permutation_map, sort_values_desc_perm, argsort_spec. }
  assert (Hcol : forall n, In n (columns p) ->
            exists cats,
              match getitem p n with
              | Some s => Some (map fst (sort_values_desc argsort s))
              | None => None
              end = Some cats /\ Permutation cats (index p)).
  { intros n Hn. destruct (getitem_In p n Hn) as [s Hs]. rewrite Hs.
    eexists. split; [reflexivity|].
    rewrite Hsv, (getitem_labels _ _ _ Hs). reflexivity. }
  destruct (String.eqb_spec mode "total") as [->|Ht].
  { eexists. split; [apply categories_total|].
    rewrite Hsv, pivot_sum_labels. reflexivity. }
  destruct (startswith mode "year:") eqn:Hy.
  - apply startswith_year in Hy. destruct Hy as [rest ->].
    rewrite categories_year. cbv zeta.
    destruct (max_years (sorted (columns p))) as [m|] eqn:Hm.
    + pose proof (max_years_column _ _ Hm) as Hin.
      pose proof (proj2 (in_columns_In m p) Hin) as Hc.
      destruct (py_int rest) as [y|].
      * destruct (in_columns y p) eqn:E.
        -- apply Hcol, in_columns_In, E.
        -- apply Hcol, Hin.
      * rewrite Hc. apply Hcol, Hin.
    + destruct (py_int rest) as [y|].
      * destruct (in_columns y p) eqn:E.
        -- apply Hcol, in_columns_In, E.
        -- eexists. split; reflexivity.
      * eexists. split; reflexivity.
  - eexists. split; [apply categories_latest; assumption|].
    rewrite Hsv, latest_vals_labels. reflexivity.
Qed.

(** X6. With a COUNTRY column of text codes none of which has a positive
    population in the table, nothing is left to draw: the pivot has
    neither rows nor columns, the sort step yields the empty bar order
    under every mode, and the chart data has no year.  (A COUNTRY column
    that pandas reads as numbers is no input of [pivot_of].) *)
Theorem no_known_country_gives_empty_chart
        (to_numeric : string -> option Qc) (pop : dict Qc)
        (df : list Observation) (mode : string) :
  Forall (fun r => gt0 (dict_get pop (COUNTRY r)) = false) df ->
  let pivot := pivot_of to_numeric pop df in
  pivot = mkPivot [] [] /\
  categories argsort py_int mode pivot = Some [] /\
  data_by_year pivot [] = [].
Proof.
  intros Hdf pivot.
  assert (Hm : merged pop df = []).
  { rewrite merged_eq. replace (filter _ df) with (@nil Observation);
      [reflexivity|].
    symmetry. clear pivot. induction Hdf as [|r df Hr _ IH]; simpl;
      [reflexivity|]. rewrite Hr. exact IH. }
  assert (Hp : pivot = mkPivot [] []).
  { unfold pivot, pivot_of. rewrite Hm. reflexivity. }
  split; [exact Hp|]. rewrite Hp. split; [|reflexivity].
  destruct (categories_of_index mode (mkPivot [] [])) as (cats & Hc & Hperm).
  apply Permutation_sym, Permutation_nil in Hperm. subst cats. exact Hc.
Qed.

End EmptyChart.

(* ================================================================= *)
(** * Beyond the claims: missing values in a sort (lines 74, 83, 90) *)

Lemma take_filter_positions {A : Type} (d : A) (f : A -> bool) (l : list A) :
  take d l (filter (fun i => f (nth i l d)) (seq 0 (List.length l)))
  = filter f l.
Proof.
  unfold take. induction l as [|a l IH]; [reflexivity|].
  cbn [List.length seq]. rewrite <- seq_shift.
  cbn [filter nth]. rewrite filter_map_S. cbn [nth].
  destruct (f a); cbn [map nth]; rewrite map_map; cbn [nth];
    rewrite IH; reflexivity.
Qed.

Lemma nan_idx_series (s : Series) :
  nan_idx (map snd s)
  = filter (fun i => isna (snd (nth i s (EmptyString, None))))
           (seq 0 (List.length s)).
Proof.
  unfold nan_idx. rewrite length_map. apply filter_ext. intro i.
  f_equal. apply (map_nth snd s (EmptyString, None)).
Qed.

Section MissingLast.

Variable argsort : list Qc -> list nat.
Hypothesis argsort_spec : argsort_ok argsort.

(** X7. Whatever the sorting kernel does with equal values, the labels
    without a value come out of [sort_values] after all the others and in
    the order they had before the sort; under "year:YYYY" the countries
    with no value in that year therefore close the bar order in code
    order. *)
Theorem sort_values_keeps_missing_in_place (s : Series) :
  exists present,
    sort_values_desc argsort s
      = present ++ filter (fun kv => isna (snd kv)) s /\
    Forall (fun kv => snd kv <> None) present.
Proof.
  exists (take (EmptyString, None) s (rev (indexer argsort (map snd s)))).
  split.
  - unfold sort_values_desc. rewrite nargsort_desc_eq.
    unfold take at 1. rewrite map_app. f_equal.
    rewrite nan_idx_series.
    apply (take_filter_positions (EmptyString, None)
             (fun kv => isna (snd kv))).
  - apply Forall_forall. intros kv Hkv. unfold take in Hkv.
    apply in_map_iff in Hkv. destruct Hkv as (i & <- & Hi).
    apply in_rev in Hi.
    apply (Permutation_in _ (indexer_perm argsort argsort_spec _)) in Hi.
    apply non_nan_idx_Some in Hi.
    rewrite <- (map_nth snd s (EmptyString, None)). cbn [snd].
    rewrite Hi. discriminate.
Qed.

End MissingLast.

(* ================================================================= *)
(** * Beyond the claims: the chart data (lines 93-97) *)

(** X8. The keys [str(y)] of the chart data tell the years apart: looking
    a year of the pivot up under its decimal text returns the list built
    for that very year, a year that is no column has no entry, and
    distinct columns give distinct keys. *)
Theorem data_by_year_lookup (p : Pivot) (cats : list string) (y : Z) :
  (In y (columns p) ->
   dict_get (data_by_year p cats) (str y) = Some (series_for_year p cats y)) /\
  (~ In y (columns p) -> dict_get (data_by_year p cats) (str y) = None) /\
  (NoDup (columns p) -> NoDup (map fst (data_by_year p cats))).
Proof.
  unfold data_by_year. split; [|split].
  - intro H. rewrite (dict_get_str (series_for_year p cats)).
    destruct (in_dec Z.eq_dec y (sorted (columns p))) as [_|Hn];
      [reflexivity|].
    exfalso. apply Hn, sorted_In, H.
  - intro H. rewrite (dict_get_str (series_for_year p cats)).
    destruct (in_dec Z.eq_dec y (sorted (columns p))) as [Hi|_];
      [|reflexivity].
    exfalso. apply H. apply (proj1 (sorted_In _ _) Hi).
  - intro H. rewrite map_map. cbn [fst].
    apply NoDup_map_inj.
    + intros a b. apply str_inj.
    + unfold sorted.
      apply (Permutation_NoDup (Permutation_sym (isort_perm _ _)) H).
Qed.

Lemma find_row_own (rs : list (string * list (option Qc)))
      (r : string * list (option Qc)) :
  NoDup (map fst rs) -> In r rs -> find_row (fst r) rs = Some (snd r).
Proof.
  induction rs as [|[c x] rs IH]; simpl; intros Hnd Hin; [contradiction|].
  inversion Hnd; subst.
  destruct Hin as [<-|Hin]; simpl.
  - rewrite String.eqb_refl. reflexivity.
  - destruct (String.eqb_spec c (fst r)) as [E|_]; [|auto].
    exfalso. apply H1. rewrite E. apply in_map. exact Hin.
Qed.

Lemma combine_map_self {A B : Type} (g : A -> B) (l : list A) :
  combine l (map g l) = map (fun a => (a, g a)) l.
Proof. induction l as [|a l IH]; simpl; [|rewrite IH]; reflexivity. Qed.

(** X9. Sorting the bars does not detach a value from its country: for a
    year of the pivot whose index has no repeated code, the pairs
    (category, entry of the list of that year) are the pairs (country,
    rounded value) of the column of that year, each once. *)
Theorem series_pairs_are_the_column
        (p : Pivot) (cats : list string) (y : Z) (col : Series) :
  NoDup (index p) -> Permutation cats (index p) ->
  getitem p y = Some col ->
  Permutation (combine cats (series_for_year p cats y))
              (map (fun kv => (fst kv, option_map round2 (snd kv))) col).
Proof.
  intros Hnd Hperm Hcol.
  rewrite series_for_year_eq.
  set (g := fun c => match cell p c y with
                     | Some q => Some (round2 q)
                     | None => None
                     end).
  rewrite (combine_map_self g).
  unfold getitem in Hcol.
  destruct (col_pos (columns p) y) as [j|] eqn:Ej; [|discriminate].
  injection Hcol as <-. rewrite map_map. cbn [fst snd].
  rewrite (Permutation_map (fun c => (c, g c)) Hperm).
  unfold index. rewrite map_map.
  replace (map (fun r => (fst r, g (fst r))) (rows p))
    with (map (fun r => (fst r, option_map round2 (nth j (snd r) None)))
              (rows p)); [reflexivity|].
  apply map_ext_in. intros r Hr. f_equal.
  unfold g, cell. rewrite (find_row_own _ _ Hnd Hr), Ej.
  destruct (nth j (snd r) None); reflexivity.
Qed.

Lemma cell_unknown_year (p : Pivot) (c : string) (y : Z) :
  ~ In y (columns p) -> cell p c y = None.
Proof.
  intro H. unfold cell. destruct (col_pos (columns p) y) as [j|] eqn:E.
  - exfalso. apply H, col_pos_In. eauto.
  - destruct (find_row c (rows p)); reflexivity.
Qed.

Lemma cell_unknown_country (p : Pivot) (c : string) (y : Z) :
  ~ In c (index p) -> cell p c y = None.
Proof.
  intro H. unfold cell. rewrite (find_row_not_In c (rows p) H). reflexivity.
Qed.

(** X10. Asking for what the pivot does not have gives the missing
    marker, not an error: the list of a year that is no column consists
    of one missing marker per category, and a category that is no
    country of the pivot gets the missing marker in every year. *)
Theorem series_of_unknown_labels (p : Pivot) (cats : list string) (y : Z) :
  (~ In y (columns p) ->
   series_for_year p cats y = repeat None (List.length cats)) /\
  (forall i, i < List.length cats ->
     ~ In (nth i cats EmptyString) (index p) ->
     nth i (series_for_year p cats y) None = None).
Proof.
  rewrite series_for_year_eq. split.
  - intro H. induction cats as [|c cats IH]; simpl; [reflexivity|].
    rewrite (cell_unknown_year p c y H), IH. reflexivity.
  - intros i Hi H.
    set (g := fun c => match cell p c y with
                       | Some q => Some (round2 q)
                       | None => None
                       end).
    rewrite (nth_indep _ None (g EmptyString)) by (rewrite length_map; exact Hi).
    rewrite (map_nth g). unfold g.
    rewrite (cell_unknown_country p _ y H). reflexivity.
Qed.

(* ================================================================= *)
(** * Beyond the claims: rounding and the cast of the year (lines 52, 95) *)

Lemma Qc_of_Z_this (z : Z) : this (Qc_of_Z z) = inject_Z z.
Proof.
  unfold Qc_of_Z. cbn [this Q2Qc]. apply Qred_identity.
  unfold inject_Z. cbn [Qnum Qden]. apply Z.gcd_1_r.
Qed.

Lemma Qc_of_Z_100_neq : Qc_of_Z 100 <> 0%Qc.
Proof. intro H. apply (f_equal this) in H. vm_compute in H. discriminate. Qed.

Lemma round_half_even_Z (z : Z) : round_half_even (inject_Z z) = z.
Proof.
  unfold round_half_even. rewrite Qfloor_Z.
  assert (H : forall t : Q, Qcompare (t - t) (1 # 2) = Lt)
    by (intro t; apply (proj1 (Qlt_alt _ _)); lra).
  rewrite H. reflexivity.
Qed.

Lemma round_half_even_range (x : Q) :
  (Qfloor x <= round_half_even x <= Qfloor x + 1)%Z.
Proof.
  unfold round_half_even.
  destruct (Qcompare (x - inject_Z (Qfloor x)) (1 # 2));
    [destruct (Z.even (Qfloor x))| |]; lia.
Qed.

Lemma round_half_even_mono (x y : Q) :
  (x <= y)%Q -> (round_half_even x <= round_half_even y)%Z.
Proof.
  intro Hxy. pose proof (Qfloor_resp_le x y Hxy) as Hf.
  destruct (Z.eq_dec (Qfloor x) (Qfloor y)) as [E|Hne].
  - unfold round_half_even. rewrite E.
    destruct (Qcompare (x - inject_Z (Qfloor y)) (1 # 2)) eqn:Cx;
      [apply Qeq_alt in Cx | apply Qlt_alt in Cx | apply Qgt_alt in Cx];
      (destruct (Qcompare (y - inject_Z (Qfloor y)) (1 # 2)) eqn:Cy;
       [apply Qeq_alt in Cy | apply Qlt_alt in Cy | apply Qgt_alt in Cy]);
      destruct (Z.even (Qfloor y)); try lia; exfalso; lra.
  - pose proof (round_half_even_range x). pose proof (round_half_even_range y).
    lia.
Qed.

(** X11. Rounding for display keeps the picture honest: a value already
    rounded is left as it is, and a larger value never gets a smaller
    rounded value, so the rounded lists keep the order of the bars. *)
Theorem round2_idempotent_monotone (q q' : Qc) :
  round2 (round2 q) = round2 q /\
  ((q <= q')%Qc -> (round2 q <= round2 q')%Qc).
Proof.
  split.
  - unfold round2 at 1. unfold round2.
    set (n := round_half_even (q * Qc_of_Z 100)%Qc).
    replace (Qc_of_Z n / Qc_of_Z 100 * Qc_of_Z 100)%Qc with (Qc_of_Z n).
    + rewrite Qc_of_Z_this, round_half_even_Z. reflexivity.
    + unfold Qcdiv. rewrite <- Qcmult_assoc.
      rewrite (Qcmult_inv_l _ Qc_of_Z_100_neq), Qcmult_1_r. reflexivity.
  - intro Hle. unfold round2.
    assert (Hm : (round_half_even (q * Qc_of_Z 100)%Qc
                  <= round_half_even (q' * Qc_of_Z 100)%Qc)%Z).
    { apply round_half_even_mono.
      unfold Qcle in Hle. unfold Qcmult. cbn [this Q2Qc].
      rewrite !Qred_correct, Qc_of_Z_this.
      change (inject_Z 100) with (100 # 1)%Q. lra. }
    rewrite Zle_Qle in Hm. revert Hm.
    generalize (round_half_even (q * Qc_of_Z 100)%Qc)
               (round_half_even (q' * Qc_of_Z 100)%Qc).
    intros n n' Hm.
    unfold Qcle, Qcdiv, Qcmult, Qcinv. cbn [this Q2Qc].
    rewrite !Qred_correct, !Qc_of_Z_this.
    change (inject_Z 100) with (100 # 1)%Q.
    assert (E : (/ (100 # 1) == 1 # 100)%Q) by reflexivity.
    rewrite E. lra.
Qed.

Lemma astype_int_Qc_of_Z (z : Z) : astype_int (Qc_of_Z z) = z.
Proof.
  unfold astype_int. rewrite Qc_of_Z_this. cbn [inject_Z Qnum Qden].
  apply Z.quot_1_r.
Qed.



Lemma Qc_of_Z_lt (a b : Z) : (Qc_of_Z a < Qc_of_Z b)%Qc <-> (a < b)%Z.
Proof.
  unfold Qclt. rewrite !Qc_of_Z_this, <- Zlt_Qlt. reflexivity.
Qed.

Lemma Qc_of_Z_add1 (a : Z) : (Qc_of_Z a + 1)%Qc = Qc_of_Z (a + 1).
Proof.
  apply Qc_is_canon. unfold Qcplus. cbn [this Q2Qc].
  rewrite Qred_correct, !Qc_of_Z_this.
  rewrite inject_Z_plus. reflexivity.
Qed.

Lemma Qc_of_Z_sub1 (a : Z) : (Qc_of_Z a - 1)%Qc = Qc_of_Z (a - 1).
Proof.
  apply Qc_is_canon. unfold Qcminus, Qcplus, Qcopp. cbn [this Q2Qc].
  rewrite !Qred_correct, !Qc_of_Z_this.
  unfold Z.sub. rewrite inject_Z_plus, inject_Z_opp. reflexivity.
Qed.

(** A number has one truncation only. *)
Lemma truncation_unique (q : Qc) (a b : Z) :
  truncation_of q a -> truncation_of q b -> a = b.
Proof.
  intros [Ha1 Ha2] [Hb1 Hb2].
  destruct (Qclt_le_dec q 0)%Qc as [H|H].
  - apply Qclt_le_weak in H.
    destruct (Ha2 H) as [A1 A2]. destruct (Hb2 H) as [B1 B2].
    rewrite Qc_of_Z_sub1 in A2, B2.
    pose proof (proj1 (Qc_of_Z_lt (a - 1) b) (Qclt_le_trans _ _ _ A2 B1)).
    pose proof (proj1 (Qc_of_Z_lt (b - 1) a) (Qclt_le_trans _ _ _ B2 A1)).
    lia.
  - destruct (Ha1 H) as [A1 A2]. destruct (Hb1 H) as [B1 B2].
    rewrite Qc_of_Z_add1 in A2, B2.
    pose proof (proj1 (Qc_of_Z_lt a (b + 1)) (Qcle_lt_trans _ _ _ A1 B2)).
    pose proof (proj1 (Qc_of_Z_lt b (a + 1)) (Qcle_lt_trans _ _ _ B1 A2)).
    lia.
Qed.



Lemma Qc_of_nat_S (n : nat) : Qc_of_nat (S n) = (Qc_of_nat n + 1)%Qc.
Proof.
  apply Qc_is_canon. unfold Qc_of_nat, Qcplus. cbn [this Q2Qc].
  rewrite Qred_correct, !Qc_of_Z_this, Nat2Z.inj_succ.
  unfold Z.succ. rewrite inject_Z_plus. reflexivity.
Qed.

Lemma Qc_of_nat_pos (n : nat) : (0 < Qc_of_nat (S n))%Qc.
Proof.
  unfold Qclt, Qc_of_nat. rewrite Qc_of_Z_this. cbn [this Q2Qc].
  unfold Qlt, inject_Z. cbn. lia.
Qed.

(* ================================================================= *)
(** * Beyond the claims: sorts that change nothing, policies that agree *)

Lemma insert_by_last {A : Type} (le : A -> A -> bool) (x : A) (l : list A) :
  Forall (fun y => le y x = true) l -> insert_by le x l = l ++ [x].
Proof.
  induction 1 as [|y l Hy _ IH]; simpl; [reflexivity|].
  rewrite Hy, IH. reflexivity.
Qed.

Lemma isort_positions_sorted (cols : list Z) (n : nat) :
  StronglySorted Z.lt cols -> n <= List.length cols ->
  isort (fun i j => Z.leb (nth i cols 0%Z) (nth j cols 0%Z)) (seq 0 n)
  = seq 0 n.
Proof.
  intro HS. induction n as [|n IH]; intro Hn; [reflexivity|].
  rewrite seq_S, isort_snoc, IH by lia. cbn [Nat.add].
  apply insert_by_last. apply Forall_forall. intros y Hy.
  apply in_seq in Hy. apply Z.leb_le, Z.lt_le_incl.
  apply (StronglySorted_nth Z.lt 0%Z cols HS); lia.
Qed.

Lemma take_all_seq {A : Type} (d : A) (l : list A) (n : nat) :
  List.length l = n -> take d l (seq 0 n) = l.
Proof. intros <-. apply take_seq. Qed.

Lemma sort_columns_sorted (p : Pivot) :
  StronglySorted Z.lt (columns p) ->
  Forall (fun r => List.length (snd r) = List.length (columns p)) (rows p) ->
  sort_columns p = p.
Proof.
  intros HS HF. unfold sort_columns.
  rewrite (isort_positions_sorted _ _ HS (Nat.le_refl _)), take_seq.
  destruct p as [cols rs]. cbn [columns rows] in *. f_equal.
  rewrite <- (map_id rs) at 2. apply map_ext_in. intros [c r] Hr.
  rewrite Forall_forall in HF. specialize (HF _ Hr). cbn [fst snd] in *.
  rewrite (take_all_seq None r _ HF). reflexivity.
Qed.

Lemma pivot_columns_ascending (d : list (key * Qc)) :
  StronglySorted Z.lt (columns (sort_index (pivot_table d))).
Proof. rewrite pivot_columns_eq. apply isort_Z_ascending, NoDup_nodup. Qed.

Lemma sort_columns_pivot_table (d : list (key * Qc)) :
  sort_columns (sort_index (pivot_table d)) = sort_index (pivot_table d).
Proof.
  apply sort_columns_sorted;
    [apply pivot_columns_ascending | apply pivot_axes_shape].
Qed.

(** X1. The two [sort_index] calls of the script change nothing:
    [pivot] already delivers the rows in ascending order of the codes
    (line 61) and the columns in ascending order of the years (line 85). *)
Theorem sort_index_after_pivot_is_identity (d : list (key * Qc)) :
  sort_index (pivot_table d) = pivot_table d /\
  sort_columns (sort_index (pivot_table d)) = sort_index (pivot_table d).
Proof.
  split; [apply sort_index_pivot_table | apply sort_columns_pivot_table].
Qed.

Lemma latest_val_snoc (r : list (option Qc)) (v : Qc) :
  latest_val (r ++ [Some v]) = Some v.
Proof.
  destruct (latest_val (r ++ [Some v])) as [q|] eqn:E.
  - apply latest_val_Some in E. destruct E as (r1 & r2 & E & HF).
    destruct r2 as [|x r2 _] using rev_ind.
    + apply app_inj_tail in E. destruct E as [_ E]. congruence.
    + exfalso. rewrite app_comm_cons, app_assoc in E.
      apply app_inj_tail in E. destruct E as [_ E].
      rewrite Forall_forall in HF.
      assert (x = None) by (apply HF, in_elt). congruence.
  - apply latest_val_None in E. rewrite Forall_forall in E.
    assert (Some v = None) by (apply E, in_elt). discriminate.
Qed.

Lemma latest_val_last_filled (r : list (option Qc)) (v : Qc) :
  nth (List.length r - 1) r None = Some v -> latest_val r = Some v.
Proof.
  destruct r as [|x r _] using rev_ind; [discriminate|].
  rewrite length_app. cbn [List.length].
  replace (List.length r + 1 - 1) with (List.length r) by lia.
  rewrite nth_middle. intros ->. apply latest_val_snoc.
Qed.

Lemma max_column_is_last (cols : list Z) (m : Z) (j : nat) :
  StronglySorted Z.lt cols -> In m cols ->
  (forall y, In y cols -> (y <= m)%Z) ->
  col_pos cols m = Some j -> j = List.length cols - 1.
Proof.
  intros HS _ Hmax Hj. apply col_pos_Some in Hj. destruct Hj as [Hlt Hm].
  destruct (Nat.eq_dec j (List.length cols - 1)) as [E|Hne]; [exact E|].
  exfalso.
  assert (Hlast : List.length cols - 1 < List.length cols) by lia.
  pose proof (StronglySorted_nth Z.lt 0%Z cols HS j (List.length cols - 1)
                ltac:(lia) Hlast) as H.
  rewrite Hm in H.
  specialize (Hmax _ (nth_In cols 0%Z Hlast)). lia.
Qed.

Section PoliciesAgree.

Variable argsort : list Qc -> list nat.
Variable py_int : string -> option Z.

(** X14. When every country has a value in the last year of the pivot,
    "latest" and "year:" followed by that year give the same bar order,
    whatever the sorting kernel: both sort the column of that year. *)
Theorem latest_agrees_with_last_year
        (d : list (key * Qc)) (rest : string) (m : Z) (col : Series) :
  let pivot := sort_index (pivot_table d) in
  max_years (sorted (columns pivot)) = Some m ->
  py_int rest = Some m ->
  getitem pivot m = Some col ->
  Forall (fun kv => snd kv <> None) col ->
  latest_vals pivot = col /\
  categories argsort py_int "latest" pivot
  = categories argsort py_int ("year:" ++ rest) pivot.
Proof.
  intros pivot Hm Hint Hcol Hfull.
  assert (Hin : In m (columns pivot)) by exact (max_years_column _ _ Hm).
  assert (Hlv : latest_vals pivot = col).
  { unfold latest_vals, pivot. rewrite sort_columns_pivot_table.
    fold pivot. unfold getitem in Hcol.
    destruct (col_pos (columns pivot) m) as [j|] eqn:Ej; [|discriminate].
    injection Hcol as <-.
    apply map_ext_in. intros r Hr. f_equal.
    assert (Hj : j = List.length (snd r) - 1).
    { destruct (pivot_axes_shape d) as [Hshape _].
      rewrite Forall_forall in Hshape. rewrite (Hshape r Hr).
      apply (max_column_is_last _ m); [apply pivot_columns_ascending | exact Hin | | exact Ej].
      intros y Hy. apply max_years_spec in Hm. apply Hm.
      apply sorted_In. exact Hy. }
    rewrite Forall_forall in Hfull.
    specialize (Hfull (fst r, nth j (snd r) None)
                      (in_map (fun r => (fst r, nth j (snd r) None)) _ _ Hr)).
    cbn [snd] in Hfull.
    destruct (nth j (snd r) None) as [v|] eqn:Ev; [|contradiction].
    apply latest_val_last_filled. rewrite <- Hj. exact Ev. }
  split; [exact Hlv|].
  rewrite (categories_latest argsort py_int "latest" pivot)
    by (discriminate || reflexivity).
  rewrite categories_year. cbv zeta.
  rewrite Hint, (proj2 (in_columns_In m pivot) Hin), Hcol, Hlv.
  reflexivity.
Qed.

End PoliciesAgree.

Section SingleYear.

Variable argsort : list Qc -> list nat.
Variable py_int : string -> option Z.

Lemma single_cell_row (r : list (option Qc)) :
  List.length r = 1 -> has_value r = true -> exists v, r = [Some v].
Proof.
  destruct r as [|[v|] [|x r]]; simpl; try discriminate; eauto.
Qed.

(** X15. With data for a single year the choice of the policy does not
    matter: "total" and "latest" sort the same series, the one column of
    the pivot, and give the same bar order. *)
Theorem single_year_policies_agree (d : list (key * Qc)) (m : Z) :
  let pivot := sort_index (pivot_table d) in
  columns pivot = [m] ->
  pivot_sum pivot = latest_vals pivot /\
  getitem pivot m = Some (latest_vals pivot) /\
  categories argsort py_int "total" pivot
  = categories argsort py_int "latest" pivot.
Proof.
  intros pivot Hcols.
  assert (Hrow : forall r, In r (rows pivot) -> exists v, snd r = [Some v]).
  { intros r Hr. apply single_cell_row.
    - destruct (pivot_axes_shape d) as [Hshape _].
      rewrite Forall_forall in Hshape. fold pivot in Hshape.
      rewrite (Hshape r Hr), Hcols. reflexivity.
    - pose proof (pivot_rows_have_value d) as Hv.
      rewrite Forall_forall in Hv. apply Hv, Hr. }
  assert (Hlv : latest_vals pivot
                = map (fun r => (fst r, latest_val (snd r))) (rows pivot)).
  { unfold latest_vals, pivot. rewrite sort_columns_pivot_table. reflexivity. }
  assert (Hs : pivot_sum pivot = latest_vals pivot).
  { rewrite Hlv. unfold pivot_sum. apply map_ext_in. intros r Hr.
    destruct (Hrow r Hr) as [v ->]. unfold sum_skipna, latest_val.
    cbn [fold_left dropna last]. rewrite Qcplus_0_l. reflexivity. }
  split; [exact Hs|]. split.
  - unfold getitem. rewrite Hcols. cbn [col_pos]. rewrite Z.eqb_refl.
    rewrite Hlv. apply (f_equal Some). apply map_ext_in. intros r Hr.
    destruct (Hrow r Hr) as [v ->]. reflexivity.
  - rewrite categories_total, Hs.
    rewrite (categories_latest argsort py_int "latest" pivot)
      by (discriminate || reflexivity).
    reflexivity.
Qed.

End SingleYear.

(* ================================================================= *)
(** * Beyond the claims: no negative bar from non-negative counts *)

Lemma fold_sum_lower (lo : Qc) (vs : list Qc) (a : Qc) :
  Forall (fun v => (lo <= v)%Qc) vs ->
  (a + lo * Qc_of_nat (List.length vs) <= fold_left Qcplus vs a)%Qc.
Proof.
  intro H. revert a. induction H as [|v vs Hlo _ IH]; intro a.
  - cbn [List.length fold_left].
    replace (Qc_of_nat 0) with 0%Qc by (apply Qc_is_canon; reflexivity).
    rewrite Qcmult_0_r, Qcplus_0_r. apply Qcle_refl.
  - cbn [List.length fold_left]. rewrite Qc_of_nat_S.
    apply Qcle_trans with (a + v + lo * Qc_of_nat (List.length vs))%Qc;
      [|apply IH].
    replace (a + lo * (Qc_of_nat (List.length vs) + 1))%Qc
      with (a + lo + lo * Qc_of_nat (List.length vs))%Qc by ring.
    apply Qcplus_le_compat; [|apply Qcle_refl].
    apply Qcplus_le_compat; [apply Qcle_refl | exact Hlo].
Qed.

Lemma mean_nonneg (vs : list Qc) :
  Forall (fun v => (0 <= v)%Qc) vs -> (0 <= mean vs)%Qc.
Proof.
  intro H. pose proof (fold_sum_lower 0%Qc vs 0%Qc H) as Hlo.
  rewrite Qcmult_0_l, Qcplus_0_l in Hlo. unfold mean, Qc_sum.
  destruct vs as [|v vs].
  - cbn. apply Qcle_refl.
  - set (n := Qc_of_nat (List.length (v :: vs))) in *.
    assert (Hpos : (0 < n)%Qc) by apply Qc_of_nat_pos.
    assert (Hnz : n <> 0%Qc).
    { intro E. rewrite E in Hpos. exact (Qclt_not_eq _ _ Hpos eq_refl). }
    apply (Qcmult_lt_0_le_reg_r _ _ n Hpos).
    rewrite Qcmult_0_l. unfold Qcdiv.
    rewrite <- Qcmult_assoc, (Qcmult_inv_l _ Hnz), Qcmult_1_r. exact Hlo.
Qed.

Lemma Qcdiv_nonneg (v q : Qc) :
  (0 <= v)%Qc -> (0 < q)%Qc -> (0 <= v / q)%Qc.
Proof.
  intros Hv Hq. apply (Qcmult_lt_0_le_reg_r _ _ q Hq).
  assert (Hnz : q <> 0%Qc).
  { intro E. rewrite E in Hq. exact (Qclt_not_eq _ _ Hq eq_refl). }
  rewrite Qcmult_0_l. unfold Qcdiv.
  rewrite <- Qcmult_assoc, (Qcmult_inv_l _ Hnz), Qcmult_1_r. exact Hv.
Qed.

Lemma sum_skipna_nonneg (r : list (option Qc)) :
  Forall (fun c => forall v, c = Some v -> (0 <= v)%Qc) r ->
  (0 <= sum_skipna r)%Qc.
Proof.
  unfold sum_skipna. intro H.
  assert (G : forall a, (0 <= a)%Qc ->
            (0 <= fold_left (fun acc c => match c with
                                          | Some v => (acc + v)%Qc
                                          | None => acc
                                          end) r a)%Qc).
  { induction H as [|c r Hc _ IH]; intros a Ha; [exact Ha|].
    cbn [fold_left]. apply IH. destruct c as [v|]; [|exact Ha].
    replace 0%Qc with (0 + 0)%Qc by apply Qcplus_0_l.
    apply Qcplus_le_compat; [exact Ha | apply Hc; reflexivity]. }
  apply G, Qcle_refl.
Qed.

(** X16. Counts that are not negative give a chart without negative
    values: every cell of the pivot is then at least 0, and so is the
    sum by which "total" ranks a country. *)
Theorem nonnegative_counts_give_nonnegative_bars
        (to_numeric : string -> option Qc) (pop : dict Qc)
        (df : list Observation) :
  Forall (fun r => forall v, OBS_VALUE r = Some v -> (0 <= v)%Qc) df ->
  let pivot := pivot_of to_numeric pop df in
  (forall c y v, cell pivot c y = Some v -> (0 <= v)%Qc) /\
  Forall (fun r => (0 <= sum_skipna (snd r))%Qc) (rows pivot).
Proof.
  intros Hdf pivot.
  assert (Hrows : forall k v,
            In (k, v) (numeric_rows to_numeric (merged pop df)) ->
            (0 <= v)%Qc).
  { intros k v Hin. apply numeric_rows_In in Hin.
    destruct Hin as (m & t & Hm & _ & Hv & _).
    rewrite merged_eq in Hm. apply in_map_iff in Hm.
    destruct Hm as (r & <- & Hr). apply filter_In in Hr.
    destruct Hr as [Hin Hr]. apply gt0_Some in Hr.
    destruct Hr as (q & Hq & Hpos).
    cbn [Patents_per_million] in Hv. rewrite Hq in Hv.
    rewrite Forall_forall in Hdf. specialize (Hdf r Hin).
    destruct (OBS_VALUE r) as [w|]; [|discriminate].
    injection Hv as <-. apply Qcdiv_nonneg; auto. }
  assert (Hcell : forall k v,
            lookup k (df_ratio to_numeric (merged pop df)) = Some v ->
            (0 <= v)%Qc).
  { intros k v Hv. unfold df_ratio in Hv. rewrite groupby_mean_lookup in Hv.
    destruct (values_of k _) as [|w ws] eqn:E; [discriminate|].
    injection Hv as <-. apply mean_nonneg. apply Forall_forall.
    intros x Hx. rewrite <- E in Hx. apply values_of_In in Hx.
    exact (Hrows _ _ Hx). }
  split.
  - intros c y v Hv. unfold pivot, pivot_of in Hv.
    rewrite pivot_table_cell in Hv. exact (Hcell _ _ Hv).
  - unfold pivot, pivot_of. rewrite pivot_rows_eq.
    apply Forall_forall. intros r Hr. apply in_map_iff in Hr.
    destruct Hr as (c & <- & _). cbn [snd].
    apply sum_skipna_nonneg. apply Forall_forall. intros x Hx v ->.
    apply in_map_iff in Hx. destruct Hx as (y & Hy & _).
    exact (Hcell _ _ Hy).
Qed.

(* ================================================================= *)
(** * Beyond the claims: the aggregator on the year column of pandas
      (lines 50-61) *)


Section AggregatorInt64Facts.

Variable to_numeric : string -> option year_value.




End AggregatorInt64Facts.

(** X18. On a frame whose numeric years are all finite with a truncation
    within int64, the cast does not stop the run, and the rows that
    enter the aggregation are those of [numeric_rows]: there the pivot
    of lines 50-61 is the one the other properties speak of. *)
Theorem int_rows_numeric_rows (to_numeric : string -> option Qc)
        (df : list Merged) :
  (forall r t, In r df -> to_numeric (TIME_PERIOD (m_obs r)) = Some t ->
               (INT64_MIN <= astype_int t <= INT64_MAX)%Z) ->
  int_rows (fun s => option_map year_finite (to_numeric s)) df
  = Some (numeric_rows to_numeric df) /\
  pivot_int64 (fun s => option_map year_finite (to_numeric s)) df
  = Some (sort_index (pivot_table (df_ratio to_numeric df))).
Proof.
  intro H.
  assert (E : int_rows (fun s => option_map year_finite (to_numeric s)) df
              = Some (numeric_rows to_numeric df)).
  { unfold int_rows, dropna_rows, numeric_rows.
    induction df as [|r df IH]; simpl; [reflexivity|].
    assert (IH' := IH (fun r' t Hr => H r' t (or_intror Hr))).
    destruct (to_numeric (TIME_PERIOD (m_obs r))) as [t|] eqn:Et; simpl;
      [|exact IH'].
    destruct (Patents_per_million r) as [v|]; simpl; [|exact IH'].
    rewrite IH'. unfold float_to_int64.
    destruct (H r t (or_introl eq_refl) Et) as [H1 H2].
    apply Z.leb_le in H1, H2. rewrite H1, H2. reflexivity. }
  split; [exact E|].
  unfold pivot_int64. rewrite E. reflexivity.
Qed.

(* ================================================================= *)
(** * These properties at concrete inputs *)

Lemma pivot_countries_have_population_witness :
  exists q, dict_get example_population "A" = Some q /\ (0 < q)%Qc.
Proof.
  apply (proj1 (pivot_countries_have_population numeric_of_digits
                  example_population example_observations) "A"%string).
  vm_compute. auto.
Defined.

Lemma no_known_country_gives_empty_chart_witness :
  pivot_of numeric_of_digits example_population [obs "C" "2020" 7]
    = mkPivot [] [] /\
  categories argsort_insertion int_of_digits "total"
    (pivot_of numeric_of_digits example_population [obs "C" "2020" 7])
    = Some [].
Proof.
  destruct (no_known_country_gives_empty_chart argsort_insertion int_of_digits
              argsort_insertion_ok numeric_of_digits example_population
              [obs "C" "2020" 7] "total") as (H1 & H2 & _).
  - repeat constructor.
  - split; assumption.
Defined.

Lemma sort_values_keeps_missing_in_place_witness :
  exists present,
    sort_values_desc argsort_insertion
      [("A"%string, None); ("B"%string, Some (Qc_of_Z 1)); ("C"%string, None)]
    = present ++ [("A"%string, None); ("C"%string, None)] /\
    Forall (fun kv => snd kv <> None) present.
Proof.
  exact (sort_values_keeps_missing_in_place argsort_insertion
           argsort_insertion_ok
           [("A"%string, None); ("B"%string, Some (Qc_of_Z 1));
            ("C"%string, None)]).
Defined.

Lemma data_by_year_lookup_witness :
  dict_get (data_by_year example_pivot ["A"; "B"]%string) (str 2021)
  = Some (series_for_year example_pivot ["A"; "B"]%string 2021%Z).
Proof.
  apply (proj1 (data_by_year_lookup example_pivot ["A"; "B"]%string 2021%Z)).
  vm_compute. auto.
Defined.

Lemma series_pairs_are_the_column_witness :
  exists col,
    getitem example_pivot 2021%Z = Some col /\
    Permutation
      (combine ["B"; "A"]%string
               (series_for_year example_pivot ["B"; "A"]%string 2021%Z))
      (map (fun kv => (fst kv, option_map round2 (snd kv))) col).
Proof.
  assert (E : index example_pivot = ["A"; "B"]%string)
    by (vm_compute; reflexivity).
  destruct (getitem_In example_pivot 2021%Z) as [col Hcol].
  { vm_compute. auto. }
  exists col. split; [exact Hcol|].
  apply (series_pairs_are_the_column example_pivot ["B"; "A"]%string
           2021%Z col).
  - rewrite E. repeat constructor; simpl; intuition discriminate.
  - rewrite E. apply perm_swap.
  - exact Hcol.
Defined.

Lemma series_of_unknown_labels_witness :
  series_for_year example_pivot ["A"; "B"]%string 1999%Z = [None; None].
Proof.
  apply (proj1 (series_of_unknown_labels example_pivot ["A"; "B"]%string
                  1999%Z)).
  vm_compute. intros [H|[H|[]]]; discriminate.
Defined.

Lemma round2_idempotent_monotone_witness :
  (round2 (Qc_of_Z 1) <= round2 (Qc_of_Z 2))%Qc.
Proof.
  apply (proj2 (round2_idempotent_monotone (Qc_of_Z 1) (Qc_of_Z 2))).
  vm_compute. discriminate.
Defined.

Lemma latest_agrees_with_last_year_witness :
  categories argsort_insertion int_of_digits "latest"
    (sort_index (pivot_table full_rows))
  = categories argsort_insertion int_of_digits "year:2021"
      (sort_index (pivot_table full_rows)).
Proof.
  destruct (getitem_In (sort_index (pivot_table full_rows)) 2021%Z)
    as [col Hcol].
  { vm_compute. auto. }
  refine (proj2 (latest_agrees_with_last_year argsort_insertion int_of_digits
                   full_rows "2021" 2021%Z col _ _ Hcol _)).
  - reflexivity.
  - reflexivity.
  - vm_compute in Hcol. injection Hcol as <-.
    repeat constructor; discriminate.
Defined.

Lemma single_year_policies_agree_witness :
  categories argsort_insertion int_of_digits "total"
    (sort_index (pivot_table [(("A"%string, 2020%Z), Qc_of_Z 1);
                              (("B"%string, 2020%Z), Qc_of_Z 2)]))
  = categories argsort_insertion int_of_digits "latest"
      (sort_index (pivot_table [(("A"%string, 2020%Z), Qc_of_Z 1);
                                (("B"%string, 2020%Z), Qc_of_Z 2)])).
Proof.
  refine (proj2 (proj2 (single_year_policies_agree argsort_insertion
                          int_of_digits _ 2020%Z _))).
  reflexivity.
Defined.

Lemma nonnegative_counts_give_nonnegative_bars_witness :
  Forall (fun r => (0 <= sum_skipna (snd r))%Qc)
         (rows (pivot_of numeric_of_digits example_population
                         example_observations)).
Proof.
  refine (proj2 (nonnegative_counts_give_nonnegative_bars numeric_of_digits
                   example_population example_observations _)).
  repeat constructor; intros v E; injection E as <-; vm_compute; discriminate.
Defined.



Lemma int_rows_numeric_rows_witness :
  pivot_int64 (fun s => option_map year_finite (numeric_of_digits s))
              example_merged
  = Some example_pivot.
Proof.
  refine (proj2 (int_rows_numeric_rows numeric_of_digits example_merged _)).
  intros r t Hr Et.
  assert (Hy : t = Qc_of_Z 2020 \/ t = Qc_of_Z 2021).
  { vm_compute in Hr.
    destruct Hr as [<-|[<-|[<-|[]]]]; vm_compute in Et;
      injection Et as <-; [left | right | left];
      apply Qc_is_canon; reflexivity. }
  destruct Hy as [-> | ->]; rewrite astype_int_Qc_of_Z;
    unfold INT64_MIN, INT64_MAX; lia.
Defined.
